(** * SundaySignals: the trigger routes and the relational schema

    Two parts of the repository are embedded here.

    - The web tier: [requireTriggerToken] (src/lib/utils) and the three
      token-gated route handlers [POST] of /api/trigger-weekly,
      /api/waivers/scan and /api/refresh-week.
    - The storage tier: the DDL of supabase/schema.sql, kept as data
      (tables, columns, constraints, the view [odds_implied]) and given
      its meaning by a small interpreter of SQL expressions and
      statements. *)

From Stdlib Require Import ZArith QArith String Ascii List Bool Lia.
From stdpp Require Import base option list strings pretty gmap.

Local Open Scope string_scope.
Local Open Scope Z_scope.

(** ** JavaScript values *)

Module Js.

(** The values a handler meets: what [JSON.parse] produces, plus
    [undefined].  [JNum n] is the number whose value is the integer [n]
    (a safe integer, which [Number::toString] prints in plain decimal);
    numbers with a fractional part are IEEE doubles and have no
    constructor here.  An object is its list of own properties in
    property order. *)
#[local] Unset Elimination Schemes.
Inductive jsval : Type :=
  | JUndefined
  | JNull
  | JBool (b : bool)
  | JNum (n : Z)
  | JStr (s : string)
  | JArr (xs : list jsval)
  | JObj (props : list (string * jsval)).
#[local] Set Elimination Schemes.

(** Errors a promise can reject with. *)
Inductive exn : Type := SyntaxError | TypeError.

(** How a promise settles. *)
Inductive settled (A : Type) : Type :=
  | Resolved (a : A)
  | Rejected (e : exn).
Arguments Resolved {A} a.
Arguments Rejected {A} e.

(** What a handler can do to the world besides answering.  The stubs
    only ever consume the request body. *)
Inductive event : Type := BodyRead.

(** A computation: the events it performed, in order, and how it
    settled. *)
Definition Eff (A : Type) : Type := (list event * settled A)%type.

Definition ret {A} (a : A) : Eff A := ([], Resolved a).
Definition throw {A} (e : exn) : Eff A := ([], Rejected e).

Definition bind {A B} (m : Eff A) (k : A -> Eff B) : Eff B :=
  match m with
  | (t, Resolved a) => let '(t', r) := k a in ((t ++ t')%list, r)
  | (t, Rejected e) => (t, Rejected e)
  end.

(** [promise.catch(handler)] *)
Definition catch {A} (m : Eff A) (handler : exn -> Eff A) : Eff A :=
  match m with
  | (t, Rejected e) => let '(t', r) := handler e in ((t ++ t')%list, r)
  | (t, Resolved a) => (t, Resolved a)
  end.

Notation "'let*' x ':=' m 'in' k" := (bind m (fun x => k))
  (at level 10, x name, m at level 100, k at level 200).

(** *** JSON.stringify *)

Definition hex_digit (n : Z) : ascii :=
  if n <? 10 then ascii_of_N (Z.to_N (48 + n))
  else ascii_of_N (Z.to_N (87 + n)).

(** One code unit inside a JSON string literal (QuoteJSONString). *)
Definition quote_char (c : ascii) : string :=
  let n := Z.of_N (N_of_ascii c) in
  if n =? 8 then "\b"
  else if n =? 9 then "\t"
  else if n =? 10 then "\n"
  else if n =? 12 then "\f"
  else if n =? 13 then "\r"
  else if n =? 34 then String "\" (String c EmptyString)
  else if n =? 92 then "\\"
  else if n <? 32 then
    "\u00" ++ String (hex_digit (n / 16)) (String (hex_digit (n mod 16)) "")
  else String c "".

Fixpoint quote_chars (s : string) : string :=
  match s with
  | EmptyString => ""
  | String c s' => quote_char c ++ quote_chars s'
  end.

Definition QuoteJSONString (s : string) : string :=
  String "034" (quote_chars s ++ String "034" "").

Fixpoint join (sep : string) (parts : list string) : string :=
  match parts with
  | [] => ""
  | [p] => p
  | p :: ps => p ++ sep ++ join sep ps
  end.

(** SerializeJSONProperty: [None] is [undefined], the result for a value
    that has no JSON text.  An object skips the properties whose value
    serialises to [undefined]; an array writes [null] for them. *)
Fixpoint SerializeJSONProperty (v : jsval) : option string :=
  match v with
  | JUndefined => None
  | JNull => Some "null"
  | JBool true => Some "true"
  | JBool false => Some "false"
  | JNum n => Some (pretty n)
  | JStr s => Some (QuoteJSONString s)
  | JArr xs =>
      let element x :=
        match SerializeJSONProperty x with
        | Some s => s
        | None => "null"
        end in
      Some ("[" ++ join "," (List.map element xs) ++ "]")
  | JObj props =>
      let fix members (ps : list (string * jsval)) : list string :=
        match ps with
        | [] => []
        | (k, x) :: ps' =>
            match SerializeJSONProperty x with
            | Some s => (QuoteJSONString k ++ ":" ++ s) :: members ps'
            | None => members ps'
            end
        end in
      Some ("{" ++ join "," (members props) ++ "}")
  end.

(** [JSON.stringify(v)] where [v] is an object or array: always a
    string.  (For [undefined] the result is [undefined], which the
    [Response] constructor turns into the empty body.) *)
Definition JSON_stringify (v : jsval) : string :=
  match SerializeJSONProperty v with
  | Some s => s
  | None => ""
  end.

(** *** Property access and destructuring *)

Fixpoint own_property (props : list (string * jsval)) (key : string)
  : jsval :=
  match props with
  | [] => JUndefined
  | (k, x) :: ps => if String.eqb k key then x else own_property ps key
  end.

(** [v[key]] for a key that no built-in prototype defines and that is
    not an array index ("season", "week"): an own property of an object,
    [undefined] on anything else. *)
Definition GetV (v : jsval) (key : string) : jsval :=
  match v with
  | JObj props => own_property props key
  | _ => JUndefined
  end.

(** RequireObjectCoercible, the first step of an object destructuring
    pattern. *)
Definition RequireObjectCoercible (v : jsval) : Eff jsval :=
  match v with
  | JUndefined | JNull => throw TypeError
  | _ => ret v
  end.

(** [const { season, week } = v] *)
Definition destructure_season_week (v : jsval) : Eff (jsval * jsval) :=
  let* o := RequireObjectCoercible v in
  ret (GetV o "season", GetV o "week").

End Js.

(** ** The authorization gate and the trigger routes *)

Module Routes.
Import Js.

(** A [Headers] object holds a header list: names with their values, in
    arrival order, a name possibly more than once. *)
Definition Headers : Type := list (string * string).

Definition byte_lowercase_char (c : ascii) : ascii :=
  let n := N_of_ascii c in
  if ((65 <=? n) && (n <=? 90))%N then ascii_of_N (n + 32) else c.

Fixpoint byte_lowercase (s : string) : string :=
  match s with
  | EmptyString => EmptyString
  | String c s' => String (byte_lowercase_char c) (byte_lowercase s')
  end.

Definition header_named (name : string) (h : string * string) : bool :=
  String.eqb (byte_lowercase (fst h)) (byte_lowercase name).

(** [headers.get(name)]: [null] when no header has that name (compared
    without regard to ASCII case), else the values of all that do,
    joined by a comma and a space. *)
Definition Headers_get (headers : Headers) (name : string)
  : option string :=
  match List.filter (header_named name) headers with
  | [] => None
  | hs => Some (join ", " (List.map snd hs))
  end.

(** [process.env]: a variable is a string, or [undefined] when unset. *)
Record ProcessEnv : Type := { TRIGGER_TOKEN : option string }.

Record Response : Type := { body : string; status : Z }.

(** A request as a handler sees it: its headers and what [req.json()]
    settles to.  That promise rejects when the body is absent, empty or
    not JSON text, and resolves to the parsed value otherwise. *)
Record Request : Type := {
  headers : Headers;
  json_outcome : settled jsval
}.

(** [req.json()] consumes the body. *)
Definition Request_json (req : Request) : Eff jsval :=
  ([BodyRead], json_outcome req).

(** [!token] for [token : string | null]. *)
Definition falsy (token : option string) : bool :=
  match token with
  | None => true
  | Some s => String.eqb s ""
  end.

(** [a !== b] for [a : string | null] and [b : string | undefined]. *)
Definition strict_ne (a b : option string) : bool :=
  match a, b with
  | Some x, Some y => negb (String.eqb x y)
  | _, _ => true
  end.

(** src/lib/utils: [null] ([None]) lets the caller proceed.
<<
  const token = headers.get('x-trigger-token');
  if (!token || token !== process.env.TRIGGER_TOKEN) {
    return new Response('Unauthorized', { status: 401 });
  }
  return null;
>> *)
Definition requireTriggerToken (env : ProcessEnv) (headers : Headers)
  : option Response :=
  let token := Headers_get headers "x-trigger-token" in
  if falsy token || strict_ne token (TRIGGER_TOKEN env) then
    Some {| body := "Unauthorized"; status := 401 |}
  else None.

(** The part the two body-reading routes share after the gate.
<<
  const { season, week } = await req.json()
    .catch(() => ({ season: undefined, week: undefined }));
  return new Response(JSON.stringify({ ok: true, season, week }),
                      { status: 200 });
>> *)
Definition acknowledge_season_week (req : Request) : Eff Response :=
  let* v := catch (Request_json req)
              (fun _ => ret (JObj [("season", JUndefined);
                                   ("week", JUndefined)])) in
  let* sw := destructure_season_week v in
  ret {| body := JSON_stringify
                   (JObj [("ok", JBool true);
                          ("season", fst sw);
                          ("week", snd sw)]);
         status := 200 |}.

(** app/api/trigger-weekly/route.ts *)
Definition trigger_weekly_POST (env : ProcessEnv) (req : Request)
  : Eff Response :=
  match requireTriggerToken env (headers req) with
  | Some unauthorized => ret unauthorized
  | None => acknowledge_season_week req
  end.

(** app/api/waivers/scan/route.ts *)
Definition waivers_scan_POST (env : ProcessEnv) (req : Request)
  : Eff Response :=
  match requireTriggerToken env (headers req) with
  | Some unauthorized => ret unauthorized
  | None => acknowledge_season_week req
  end.

(** app/api/refresh-week/route.ts *)
Definition refresh_week_POST (env : ProcessEnv) (req : Request)
  : Eff Response :=
  match requireTriggerToken env (headers req) with
  | Some unauthorized => ret unauthorized
  | None =>
      ret {| body := JSON_stringify (JObj [("ok", JBool true)]);
             status := 200 |}
  end.

Definition Unauthorized : Response :=
  {| body := "Unauthorized"; status := 401 |}.

(** A request presents [t] when [t] is what the gate reads. *)
Definition presents (req : Request) (t : string) : Prop :=
  Headers_get (headers req) "x-trigger-token" = Some t.

(** The acknowledgment for a season and a week. *)
Definition acknowledgment (season week : jsval) : Response :=
  {| body := JSON_stringify (JObj [("ok", JBool true);
                                   ("season", season);
                                   ("week", week)]);
     status := 200 |}.

(** [s] between double quotes. *)
Definition dq (s : string) : string :=
  String "034" (s ++ String "034" "").

(** *** Requests the examples use *)

Definition env_configured : ProcessEnv :=
  {| TRIGGER_TOKEN := Some "s3cret" |}.

Definition env_unset : ProcessEnv := {| TRIGGER_TOKEN := None |}.

Definition env_empty : ProcessEnv := {| TRIGGER_TOKEN := Some "" |}.

Definition season_2025_week_3 : jsval :=
  JObj [("season", JNum 2025); ("week", JNum 3)].

Definition request_with (token : string) (outcome : settled jsval)
  : Request :=
  {| headers := [("content-type", "application/json");
                 ("X-Trigger-Token", token)];
     json_outcome := outcome |}.

Definition request_without_token : Request :=
  {| headers := [("content-type", "application/json")];
     json_outcome := Resolved season_2025_week_3 |}.

(** The acknowledgment without season and week. *)
Definition ok_only : Response :=
  {| body := "{" ++ dq "ok" ++ ":true}"; status := 200 |}.

Definition request_of (h : Headers) (outcome : settled jsval) : Request :=
  {| headers := h; json_outcome := outcome |}.

Definition week_only : jsval :=
  JObj [("week", JStr "playoffs"); ("note", JArr [JNum 1; JNull])].

End Routes.

(** ** SQL: values, expressions and the DDL as data *)

Module Sql.

Inductive sqltype : Type :=
  TEXT | INT | NUMERIC | BOOLEAN | TIMESTAMPTZ | UUID | JSONB.

(** A [numeric] is the rational it denotes (the rounding of a quotient
    to its display scale is left out); a [timestamptz] is a count of
    microseconds; a [jsonb] is kept as its text. *)
Inductive value : Type :=
  | Null
  | Text (s : string)
  | Int (z : Z)
  | Numeric (q : Q)
  | Boolean (b : bool)
  | Timestamptz (t : Z)
  | Uuid (u : string)
  | Jsonb (j : string).

Inductive error : Type :=
  | integer_out_of_range
  | division_by_zero
  | datatype_mismatch
  | undefined_column
  | undefined_table
  | not_null_violation
  | check_violation
  | unique_violation
  | foreign_key_violation
  | statement_too_complex.

Inductive result (A : Type) : Type :=
  | Ok (a : A)
  | Error (e : error).
Arguments Ok {A} a.
Arguments Error {A} e.

Definition result_bind {A B} (m : result A) (k : A -> result B)
  : result B :=
  match m with
  | Ok a => k a
  | Error e => Error e
  end.

Notation "'let*' x ':=' m 'in' k" := (result_bind m (fun x => k))
  (at level 10, x name, m at level 100, k at level 200).
Notation "'check*' m 'in' k" := (result_bind m (fun _ => k))
  (at level 10, m at level 100, k at level 200).

(** The first failure of a list of checks. *)
Fixpoint all_ok (checks : list (result unit)) : result unit :=
  match checks with
  | [] => Ok tt
  | c :: cs => check* c in all_ok cs
  end.

(** A row: column names with their values. *)
Definition row : Type := list (string * value).

Fixpoint get (c : string) (r : row) : value :=
  match r with
  | [] => Null
  | (k, v) :: r' => if String.eqb k c then v else get c r'
  end.

Fixpoint has_column (c : string) (r : row) : bool :=
  match r with
  | [] => false
  | (k, _) :: r' => String.eqb k c || has_column c r'
  end.

Definition is_null (v : value) : bool :=
  match v with Null => true | _ => false end.

(** Equality of two key values; [NULL] equals nothing. *)
Definition value_eqb (a b : value) : bool :=
  match a, b with
  | Text x, Text y => String.eqb x y
  | Int x, Int y => x =? y
  | Numeric x, Numeric y => Qeq_bool x y
  | Boolean x, Boolean y => Bool.eqb x y
  | Timestamptz x, Timestamptz y => x =? y
  | Uuid x, Uuid y => String.eqb x y
  | Jsonb x, Jsonb y => String.eqb x y
  | _, _ => false
  end.

(** *** int arithmetic: four bytes, an error outside them *)

Definition int4_min : Z := -2147483648.
Definition int4_max : Z := 2147483647.

Definition int4 (z : Z) : result value :=
  if (int4_min <=? z) && (z <=? int4_max) then Ok (Int z)
  else Error integer_out_of_range.

(** *** Expressions, as far as the DDL uses them *)

#[local] Unset Elimination Schemes.
Inductive expr : Type :=
  | Col (name : string)
  | IntLit (z : Z)
  | NumLit (q : Q)
  | NullLit
  | Neg (e : expr)
  | Add (e1 e2 : expr)
  | Div (e1 e2 : expr)
  | Greater (e1 e2 : expr)
  | IsNull (e : expr)
  | Between (e lo hi : expr)
  | Case (whens : list (expr * expr)) (else_ : expr).
#[local] Set Elimination Schemes.

Definition neg (a : value) : result value :=
  match a with
  | Null => Ok Null
  | Int x => int4 (- x)
  | Numeric x => Ok (Numeric (- x))
  | _ => Error datatype_mismatch
  end.

Definition add (a b : value) : result value :=
  match a, b with
  | Null, _ | _, Null => Ok Null
  | Int x, Int y => int4 (x + y)
  | Int x, Numeric y => Ok (Numeric (inject_Z x + y))
  | Numeric x, Int y => Ok (Numeric (x + inject_Z y))
  | Numeric x, Numeric y => Ok (Numeric (x + y))
  | _, _ => Error datatype_mismatch
  end.

Definition numeric_div (x y : Q) : result value :=
  if Qeq_bool y 0 then Error division_by_zero else Ok (Numeric (x / y)).

Definition div (a b : value) : result value :=
  match a, b with
  | Null, _ | _, Null => Ok Null
  | Int x, Int y =>
      if y =? 0 then Error division_by_zero else int4 (Z.quot x y)
  | Int x, Numeric y => numeric_div (inject_Z x) y
  | Numeric x, Int y => numeric_div x (inject_Z y)
  | Numeric x, Numeric y => numeric_div x y
  | _, _ => Error datatype_mismatch
  end.

(** Order of two numbers; [None] when either is [NULL]. *)
Definition compare_numbers (a b : value) : result (option comparison) :=
  match a, b with
  | Null, _ | _, Null => Ok None
  | Int x, Int y => Ok (Some (x ?= y))
  | Int x, Numeric y => Ok (Some (inject_Z x ?= y)%Q)
  | Numeric x, Int y => Ok (Some (x ?= inject_Z y)%Q)
  | Numeric x, Numeric y => Ok (Some (x ?= y)%Q)
  | _, _ => Error datatype_mismatch
  end.

Definition truth (o : option bool) : value :=
  match o with
  | Some b => Boolean b
  | None => Null
  end.

Definition gt (a b : value) : result value :=
  let* c := compare_numbers a b in
  Ok (truth (option_map (fun c => match c with Gt => true | _ => false end) c)).

Definition ge (a b : value) : result value :=
  let* c := compare_numbers a b in
  Ok (truth (option_map (fun c => match c with Lt => false | _ => true end) c)).

Definition le (a b : value) : result value :=
  let* c := compare_numbers a b in
  Ok (truth (option_map (fun c => match c with Gt => false | _ => true end) c)).

(** Three-valued [AND]. *)
Definition and3 (a b : value) : result value :=
  match a, b with
  | Boolean x, Boolean y => Ok (Boolean (x && y))
  | Boolean false, Null | Null, Boolean false => Ok (Boolean false)
  | Boolean true, Null | Null, Boolean true | Null, Null => Ok Null
  | _, _ => Error datatype_mismatch
  end.

(** Evaluation on one row.  A [CASE] evaluates its conditions in order
    and only the result it selects. *)
Fixpoint eval (r : row) (e : expr) : result value :=
  match e with
  | Col name => if has_column name r then Ok (get name r)
                else Error undefined_column
  | IntLit z => int4 z
  | NumLit q => Ok (Numeric q)
  | NullLit => Ok Null
  | Neg e1 => let* a := eval r e1 in neg a
  | Add e1 e2 => let* a := eval r e1 in let* b := eval r e2 in add a b
  | Div e1 e2 => let* a := eval r e1 in let* b := eval r e2 in div a b
  | Greater e1 e2 =>
      let* a := eval r e1 in let* b := eval r e2 in gt a b
  | IsNull e1 => let* a := eval r e1 in Ok (Boolean (is_null a))
  | Between e1 lo hi =>
      let* a := eval r e1 in
      let* l := eval r lo in
      let* h := eval r hi in
      let* lower := ge a l in
      let* upper := le a h in
      and3 lower upper
  | Case whens else_ =>
      let fix first_true (ws : list (expr * expr)) : result value :=
        match ws with
        | [] => eval r else_
        | (cond, res) :: ws' =>
            let* c := eval r cond in
            match c with
            | Boolean true => eval r res
            | Boolean false | Null => first_true ws'
            | _ => Error datatype_mismatch
            end
        end in
      first_true whens
  end.

(** *** Data definition *)

Inductive default_expr : Type :=
  | now
  | gen_random_uuid
  | literal (v : value).

Inductive on_delete : Type := NO_ACTION | CASCADE.

Inductive column_constraint : Type :=
  | NOT_NULL
  | PRIMARY_KEY
  | DEFAULT (d : default_expr)
  | CHECK (e : expr)
  | REFERENCES (table column : string) (action : on_delete).

Record column : Type := Column {
  col_name : string;
  col_type : sqltype;
  col_constraints : list column_constraint
}.

Record table : Type := Table {
  tbl_name : string;
  tbl_columns : list column;
  tbl_primary_key : list string   (* the table-level [primary key (...)] *)
}.

Record view : Type := View {
  view_name : string;
  view_select : list (string * expr);
  view_from : string
}.

Definition week_between_1_and_23 : column_constraint :=
  CHECK (Between (Col "week") (IntLit 1) (IntLit 23)).

Definition references_players : column_constraint :=
  REFERENCES "players" "player_id" CASCADE.

(** supabase/schema.sql, the script that names its tables [public.*]. *)
Definition schema_public : list table := [
  Table "players" [
    Column "player_id" TEXT [PRIMARY_KEY];
    Column "position" TEXT [NOT_NULL];
    Column "team" TEXT [];
    Column "name" TEXT [NOT_NULL] ] [];
  Table "schedule" [
    Column "season" INT [NOT_NULL];
    Column "week" INT [NOT_NULL; week_between_1_and_23];
    Column "team" TEXT [NOT_NULL];
    Column "opp" TEXT [NOT_NULL];
    Column "home" BOOLEAN [NOT_NULL] ]
    ["season"; "week"; "team"];
  Table "defense_vs_pos" [
    Column "season" INT [NOT_NULL];
    Column "week" INT [NOT_NULL; week_between_1_and_23];
    Column "team" TEXT [NOT_NULL];
    Column "position" TEXT [NOT_NULL];
    Column "dvp" NUMERIC [NOT_NULL] ]
    ["season"; "week"; "team"; "position"];
  Table "odds" [
    Column "season" INT [NOT_NULL];
    Column "week" INT [NOT_NULL; week_between_1_and_23];
    Column "game_id" TEXT [NOT_NULL];
    Column "team" TEXT [NOT_NULL];
    Column "opp" TEXT [NOT_NULL];
    Column "spread" NUMERIC [];
    Column "moneyline" INT [];
    Column "total" NUMERIC [];
    Column "updated_at" TIMESTAMPTZ [NOT_NULL; DEFAULT now] ]
    ["season"; "week"; "game_id"; "team"];
  Table "news" [
    Column "player_id" TEXT [NOT_NULL; references_players];
    Column "ts" TIMESTAMPTZ [NOT_NULL];
    Column "headline" TEXT [NOT_NULL] ]
    ["player_id"; "ts"];
  Table "pred_cache" [
    Column "pk" TEXT [NOT_NULL];
    Column "sk" TEXT [NOT_NULL];
    Column "p50" NUMERIC [NOT_NULL];
    Column "lo" NUMERIC [NOT_NULL];
    Column "hi" NUMERIC [NOT_NULL];
    Column "valid_until" TIMESTAMPTZ [NOT_NULL] ]
    ["pk"; "sk"];
  Table "user_leagues" [
    Column "user_id" UUID [NOT_NULL];
    Column "league_id" TEXT [NOT_NULL];
    Column "league_name" TEXT [];
    Column "league_avatar" TEXT [] ]
    ["user_id"; "league_id"];
  Table "rosters" [
    Column "league_id" TEXT [NOT_NULL];
    Column "user_id" UUID [NOT_NULL];
    Column "player_id" TEXT [NOT_NULL; references_players];
    Column "slot" TEXT [NOT_NULL];
    Column "season" INT [NOT_NULL];
    Column "week" INT [NOT_NULL; week_between_1_and_23] ]
    ["league_id"; "user_id"; "player_id"; "season"; "week"];
  Table "transactions" [
    Column "league_id" TEXT [NOT_NULL];
    Column "ts" TIMESTAMPTZ [NOT_NULL];
    Column "type" TEXT [NOT_NULL];
    Column "payload" JSONB [NOT_NULL] ]
    ["league_id"; "ts"];
  Table "model_runs" [
    Column "run_id" UUID [PRIMARY_KEY; DEFAULT gen_random_uuid];
    Column "season" INT [];
    Column "week" INT [];
    Column "stage" TEXT [NOT_NULL];
    Column "metrics" JSONB [];
    Column "status" TEXT [NOT_NULL; DEFAULT (literal (Text "started"))];
    Column "started_at" TIMESTAMPTZ [NOT_NULL; DEFAULT now];
    Column "ended_at" TIMESTAMPTZ [] ] [];
  Table "model_registry" [
    Column "model_id" TEXT [PRIMARY_KEY];
    Column "label" TEXT [];
    Column "metrics" JSONB [];
    Column "is_prod" BOOLEAN [NOT_NULL; DEFAULT (literal (Boolean false))];
    Column "prod_week" INT [];
    Column "prod_season" INT [] ] [];
  Table "waiver_suggestions" [
    Column "league_id" TEXT [NOT_NULL];
    Column "season" INT [NOT_NULL];
    Column "week" INT [NOT_NULL; week_between_1_and_23];
    Column "player_id" TEXT [NOT_NULL; references_players];
    Column "evor" NUMERIC [NOT_NULL];
    Column "reason" TEXT [];
    Column "created_at" TIMESTAMPTZ [NOT_NULL; DEFAULT now] ]
    ["league_id"; "season"; "week"; "player_id"]
].

(** The second script, which creates the same twelve tables under
    unqualified names.  Its [week] columns carry no check. *)
Definition schema_unqualified : list table := [
  Table "players" [
    Column "player_id" TEXT [PRIMARY_KEY];
    Column "position" TEXT [NOT_NULL];
    Column "team" TEXT [];
    Column "name" TEXT [NOT_NULL] ] [];
  Table "schedule" [
    Column "season" INT [NOT_NULL];
    Column "week" INT [NOT_NULL];
    Column "team" TEXT [NOT_NULL];
    Column "opp" TEXT [NOT_NULL];
    Column "home" BOOLEAN [NOT_NULL] ]
    ["season"; "week"; "team"];
  Table "defense_vs_pos" [
    Column "season" INT [NOT_NULL];
    Column "week" INT [NOT_NULL];
    Column "team" TEXT [NOT_NULL];
    Column "position" TEXT [NOT_NULL];
    Column "dvp" NUMERIC [NOT_NULL] ]
    ["season"; "week"; "team"; "position"];
  Table "odds" [
    Column "season" INT [NOT_NULL];
    Column "week" INT [NOT_NULL];
    Column "game_id" TEXT [NOT_NULL];
    Column "team" TEXT [NOT_NULL];
    Column "opp" TEXT [NOT_NULL];
    Column "spread" NUMERIC [];
    Column "moneyline" INT [];
    Column "total" NUMERIC [];
    Column "updated_at" TIMESTAMPTZ [NOT_NULL; DEFAULT now] ]
    ["season"; "week"; "game_id"; "team"];
  Table "news" [
    Column "player_id" TEXT [NOT_NULL; references_players];
    Column "ts" TIMESTAMPTZ [NOT_NULL];
    Column "headline" TEXT [NOT_NULL] ]
    ["player_id"; "ts"];
  Table "pred_cache" [
    Column "pk" TEXT [NOT_NULL];
    Column "sk" TEXT [NOT_NULL];
    Column "p50" NUMERIC [NOT_NULL];
    Column "lo" NUMERIC [NOT_NULL];
    Column "hi" NUMERIC [NOT_NULL];
    Column "valid_until" TIMESTAMPTZ [NOT_NULL] ]
    ["pk"; "sk"];
  Table "user_leagues" [
    Column "user_id" UUID [NOT_NULL];
    Column "league_id" TEXT [NOT_NULL];
    Column "league_name" TEXT [];
    Column "league_avatar" TEXT [] ]
    ["user_id"; "league_id"];
  Table "rosters" [
    Column "league_id" TEXT [NOT_NULL];
    Column "user_id" UUID [NOT_NULL];
    Column "player_id" TEXT [NOT_NULL; references_players];
    Column "slot" TEXT [NOT_NULL];
    Column "season" INT [NOT_NULL];
    Column "week" INT [NOT_NULL] ]
    ["league_id"; "user_id"; "player_id"; "season"; "week"];
  Table "transactions" [
    Column "league_id" TEXT [NOT_NULL];
    Column "ts" TIMESTAMPTZ [NOT_NULL];
    Column "type" TEXT [NOT_NULL];
    Column "payload" JSONB [NOT_NULL] ]
    ["league_id"; "ts"];
  Table "model_runs" [
    Column "run_id" UUID [PRIMARY_KEY; DEFAULT gen_random_uuid];
    Column "season" INT [];
    Column "week" INT [];
    Column "stage" TEXT [NOT_NULL];
    Column "metrics" JSONB [];
    Column "status" TEXT [NOT_NULL; DEFAULT (literal (Text "started"))];
    Column "started_at" TIMESTAMPTZ [NOT_NULL; DEFAULT now];
    Column "ended_at" TIMESTAMPTZ [] ] [];
  Table "model_registry" [
    Column "model_id" TEXT [PRIMARY_KEY];
    Column "label" TEXT [];
    Column "metrics" JSONB [];
    Column "is_prod" BOOLEAN [NOT_NULL; DEFAULT (literal (Boolean false))];
    Column "prod_week" INT [];
    Column "prod_season" INT [] ] [];
  Table "waiver_suggestions" [
    Column "league_id" TEXT [NOT_NULL];
    Column "season" INT [NOT_NULL];
    Column "week" INT [NOT_NULL];
    Column "player_id" TEXT [NOT_NULL; references_players];
    Column "evor" NUMERIC [NOT_NULL];
    Column "reason" TEXT [];
    Column "created_at" TIMESTAMPTZ [NOT_NULL; DEFAULT now] ]
    ["league_id"; "season"; "week"; "player_id"]
].

(** The view of supabase/schema.sql:
<<
  select season, week, game_id, team, opp, spread, moneyline, total,
         updated_at,
    case
      when moneyline is null then null
      when moneyline > 0 then 100.0 / (moneyline + 100.0)
      else (-moneyline) / ((-moneyline) + 100.0)
    end as implied_win_prob
  from public.odds;
>> *)
Definition implied_win_prob : expr :=
  Case [ (IsNull (Col "moneyline"), NullLit);
         (Greater (Col "moneyline") (IntLit 0),
          Div (NumLit 100.0) (Add (Col "moneyline") (NumLit 100.0))) ]
       (Div (Neg (Col "moneyline"))
            (Add (Neg (Col "moneyline")) (NumLit 100.0))).

Definition odds_implied : view :=
  View "odds_implied"
    [ ("season", Col "season"); ("week", Col "week");
      ("game_id", Col "game_id"); ("team", Col "team");
      ("opp", Col "opp"); ("spread", Col "spread");
      ("moneyline", Col "moneyline"); ("total", Col "total");
      ("updated_at", Col "updated_at");
      ("implied_win_prob", implied_win_prob) ]
    "odds".

(** *** Data manipulation *)

(** The stored rows of every table, by table name. *)
Definition database : Type := gmap string (list row).

Definition rows (db : database) (name : string) : list row := db !!! name.

(** What a statement reads from outside the database. *)
Record context : Type := {
  current_time : Z;
  random_uuid : string
}.

Definition find_table (tables : list table) (name : string)
  : result table :=
  match List.find (fun t => String.eqb (tbl_name t) name) tables with
  | Some t => Ok t
  | None => Error undefined_table
  end.

Definition is_primary_key (k : column_constraint) : bool :=
  match k with PRIMARY_KEY => true | _ => false end.

Definition primary_key (t : table) : list string :=
  (tbl_primary_key t ++
   List.map col_name
     (List.filter (fun c => existsb is_primary_key (col_constraints c))
        (tbl_columns t)))%list.

Fixpoint default_of (ks : list column_constraint) : option default_expr :=
  match ks with
  | [] => None
  | DEFAULT d :: _ => Some d
  | _ :: ks' => default_of ks'
  end.

Definition eval_default (ctx : context) (d : default_expr) : value :=
  match d with
  | now => Timestamptz (current_time ctx)
  | gen_random_uuid => Uuid (random_uuid ctx)
  | literal v => v
  end.

(** The row an [insert] builds: a column takes the value given for it,
    else its default, else [NULL]. *)
Definition new_row (ctx : context) (t : table) (assignments : row)
  : row :=
  List.map
    (fun c =>
       (col_name c,
        if has_column (col_name c) assignments
        then get (col_name c) assignments
        else match default_of (col_constraints c) with
             | Some d => eval_default ctx d
             | None => Null
             end))
    (tbl_columns t).

(** The row an [update] leaves: the columns named in [set] replaced. *)
Definition assign (set : row) (r : row) : row :=
  List.map
    (fun kv => (fst kv, if has_column (fst kv) set then get (fst kv) set
                        else snd kv))
    r.

Definition known_columns (t : table) (assignments : row) : result unit :=
  if forallb
       (fun a => existsb (fun c => String.eqb (col_name c) (fst a))
                   (tbl_columns t))
       assignments
  then Ok tt else Error undefined_column.

Definition has_type (ty : sqltype) (v : value) : result unit :=
  match v, ty with
  | Null, _ => Ok tt
  | Text _, TEXT => Ok tt
  | Int z, INT => check* int4 z in Ok tt
  | Numeric _, NUMERIC => Ok tt
  | Boolean _, BOOLEAN => Ok tt
  | Timestamptz _, TIMESTAMPTZ => Ok tt
  | Uuid _, UUID => Ok tt
  | Jsonb _, JSONB => Ok tt
  | _, _ => Error datatype_mismatch
  end.

(** One column constraint on the value [v] the row [r] has in that
    column.  A check passes unless it is false. *)
Definition check_constraint (db : database) (r : row) (v : value)
  (k : column_constraint) : result unit :=
  match k with
  | NOT_NULL | PRIMARY_KEY =>
      if is_null v then Error not_null_violation else Ok tt
  | DEFAULT _ => Ok tt
  | CHECK e =>
      let* b := eval r e in
      match b with
      | Boolean true | Null => Ok tt
      | Boolean false => Error check_violation
      | _ => Error datatype_mismatch
      end
  | REFERENCES t c _ =>
      if is_null v || existsb (fun r' => value_eqb (get c r') v) (rows db t)
      then Ok tt else Error foreign_key_violation
  end.

Definition check_column (db : database) (t : table) (r : row)
  (c : column) : result unit :=
  let v := get (col_name c) r in
  check* has_type (col_type c) v in
  check* (if existsb (String.eqb (col_name c)) (tbl_primary_key t)
             && is_null v
          then Error not_null_violation else Ok tt) in
  all_ok (List.map (check_constraint db r v) (col_constraints c)).

Definition check_row (db : database) (t : table) (r : row)
  : result unit :=
  all_ok (List.map (check_column db t r) (tbl_columns t)).

Definition same_key (key : list string) (a b : row) : bool :=
  forallb (fun c => value_eqb (get c a) (get c b)) key.

Fixpoint keys_distinct (key : list string) (rs : list row) : bool :=
  match rs with
  | [] => true
  | r :: rs' => negb (existsb (same_key key r) rs') && keys_distinct key rs'
  end.

(** The foreign keys that point at table [name]: referencing table and
    column, referenced column, action on delete. *)
Definition referencing (tables : list table) (name : string)
  : list (string * string * string * on_delete) :=
  flat_map (fun t =>
    flat_map (fun c =>
      flat_map (fun k =>
        match k with
        | REFERENCES t' c' a =>
            if String.eqb t' name then [(tbl_name t, col_name c, c', a)]
            else []
        | _ => []
        end) (col_constraints c)) (tbl_columns t)) tables.

(** [insert into name (columns of assignments) values (...)] *)
Definition insert (tables : list table) (ctx : context) (name : string)
  (assignments : row) (db : database) : result database :=
  let* t := find_table tables name in
  check* known_columns t assignments in
  let r := new_row ctx t assignments in
  check* check_row db t r in
  check* (if existsb (same_key (primary_key t) r) (rows db name)
          then Error unique_violation else Ok tt) in
  Ok (<[name := (rows db name ++ [r])%list]> db).

(** [update name set ... where ...].  Every row it changes is checked
    again; the keys stay distinct; no row elsewhere is left referring to
    a key that is gone (the DDL names no action on update). *)
Definition update (tables : list table) (name : string)
  (where_ : row -> bool) (set : row) (db : database) : result database :=
  let* t := find_table tables name in
  check* known_columns t set in
  let old := rows db name in
  let new := List.map (fun r => if where_ r then assign set r else r) old in
  check* all_ok (List.map (fun r => if where_ r
                                    then check_row db t (assign set r)
                                    else Ok tt) old) in
  check* (if keys_distinct (primary_key t) new then Ok tt
          else Error unique_violation) in
  check* all_ok
           (List.map
              (fun fk =>
                 match fk with
                 | (ct, cc, rc, _) =>
                     if forallb
                          (fun cr =>
                             is_null (get cc cr)
                             || existsb (fun r' => value_eqb (get rc r')
                                                     (get cc cr)) new)
                          (rows db ct)
                     then Ok tt else Error foreign_key_violation
                 end)
              (referencing tables name)) in
  Ok (<[name := new]> db).

(** [delete from name where ...], with what the foreign keys that point
    at [name] ask for: [on delete cascade] deletes the referring rows in
    turn, no action refuses the statement while such rows exist. *)
Fixpoint delete_rows (fuel : nat) (tables : list table) (name : string)
  (doomed : row -> bool) (db : database) : result database :=
  match fuel with
  | O => Error statement_too_complex
  | S fuel' =>
      let gone := List.filter doomed (rows db name) in
      let kept := List.filter (fun r => negb (doomed r)) (rows db name) in
      fold_left
        (fun acc fk =>
           let* d := acc in
           match fk with
           | (ct, cc, rc, action) =>
               let refers cr :=
                 existsb (fun g => value_eqb (get rc g) (get cc cr)) gone in
               match action with
               | CASCADE => delete_rows fuel' tables ct refers d
               | NO_ACTION =>
                   if existsb refers (rows d ct)
                   then Error foreign_key_violation else Ok d
               end
           end)
        (referencing tables name)
        (Ok (<[name := kept]> db))
  end.

Definition delete (tables : list table) (name : string)
  (where_ : row -> bool) (db : database) : result database :=
  delete_rows (S (length tables)) tables name where_ db.

Inductive statement : Type :=
  | INSERT (name : string) (assignments : row)
  | UPDATE (name : string) (where_ : row -> bool) (set : row)
  | DELETE (name : string) (where_ : row -> bool).

Definition exec (tables : list table) (ctx : context) (s : statement)
  (db : database) : result database :=
  match s with
  | INSERT name assignments => insert tables ctx name assignments db
  | UPDATE name where_ set => update tables name where_ set db
  | DELETE name where_ => delete tables name where_ db
  end.

(** The states a database created by [tables] can be in: empty at
    first, then whatever the statements it accepted made of it. *)
Inductive reachable (tables : list table) : database -> Prop :=
  | reachable_empty : reachable tables ∅
  | reachable_exec db db' ctx s :
      reachable tables db ->
      exec tables ctx s db = Ok db' ->
      reachable tables db'.

(** *** Reading a view *)

Fixpoint traverse {A B} (f : A -> result B) (l : list A)
  : result (list B) :=
  match l with
  | [] => Ok []
  | a :: l' =>
      let* b := f a in
      let* bs := traverse f l' in
      Ok (b :: bs)
  end.

Definition project (select : list (string * expr)) (r : row)
  : result row :=
  traverse (fun ne => let* v := eval r (snd ne) in Ok (fst ne, v)) select.

(** [select * from v] *)
Definition select_view (v : view) (db : database) : result (list row) :=
  traverse (project (view_select v)) (rows db (view_from v)).

(** *** The run ledger and the prediction cache *)

Inductive outcome : Type := success | failed.

Definition outcome_text (o : outcome) : string :=
  match o with
  | success => "success"
  | failed => "failed"
  end.

(** Modelled from the spec: the writer that opens a run; the pipeline
    stages that write [model_runs] are not among the sources.  "A
    ModelRun is opened (status=started) at the beginning of a pipeline
    stage identified by a stage name": a row is inserted with its stage
    (and season and week), and the DDL's defaults supply [run_id],
    [status] and [started_at]. *)
Definition open_run (tables : list table) (ctx : context)
  (stage : string) (season week : value) (db : database)
  : result database :=
  insert tables ctx "model_runs"
    [("season", season); ("week", week); ("stage", Text stage)] db.

(** [where run_id = id and status = 'started'] *)
Definition open_run_with (run_id : string) (r : row) : bool :=
  value_eqb (get "run_id" r) (Uuid run_id)
  && value_eqb (get "status" r) (Text "started").

(** Modelled from the spec: the writer that closes a run, absent from
    the sources as well.  A run is "closed by setting status to success
    or failed plus ended_at, atomically"; a failure is "recorded by
    setting a ModelRun's status to failed with explanatory metrics";
    "status transitions started -> {success, failed}". *)
Definition close_run (tables : list table) (ctx : context)
  (run_id : string) (o : outcome) (metrics : value) (db : database)
  : result database :=
  update tables "model_runs" (open_run_with run_id)
    [("metrics", metrics);
     ("status", Text (outcome_text o));
     ("ended_at", Timestamptz (current_time ctx))] db.

(** The states of the ledger when only those two writers touch it. *)
Inductive ledger_reachable (tables : list table) : database -> Prop :=
  | ledger_empty : ledger_reachable tables ∅
  | ledger_open db db' ctx stage season week :
      ledger_reachable tables db ->
      open_run tables ctx stage season week db = Ok db' ->
      ledger_reachable tables db'
  | ledger_close db db' ctx run_id o metrics :
      ledger_reachable tables db ->
      close_run tables ctx run_id o metrics db = Ok db' ->
      ledger_reachable tables db'.

Definition is_entry (pk sk : string) (r : row) : bool :=
  value_eqb (get "pk" r) (Text pk) && value_eqb (get "sk" r) (Text sk).

(** Modelled from the spec: the read path of the prediction cache, which
    the sources do not contain.  It "performs a lookup by (pk, sk) and
    must check valid_until against current time: entries at or past
    expiry are treated as cache-miss"; "no synchronous recomputation on
    miss".  The result is the entry, if fresh, and the database as the
    read leaves it. *)
Definition get_fresh_prediction (at_time : Z) (pk sk : string)
  (db : database) : option row * database :=
  (match List.find (is_entry pk sk) (rows db "pred_cache") with
   | Some r =>
       match get "valid_until" r with
       | Timestamptz t => if at_time <? t then Some r else None
       | _ => None
       end
   | None => None
   end,
   db).

(** *** Weeks *)

(** The week of a row, when it is one of the weeks 1 to 23. *)
Definition week_in_range (r : row) : Prop :=
  exists w, get "week" r = Int w /\ 1 <= w <= 23.

Definition week_column : column :=
  Column "week" INT [NOT_NULL; week_between_1_and_23].

(** The five tables with a week column. *)
Definition week_tables : list string :=
  ["schedule"; "defense_vs_pos"; "odds"; "rosters"; "waiver_suggestions"].

(** Every stored row of the five tables has its week in 1 to 23. *)
Definition weeks_in_range (db : database) : Prop :=
  forall name, In name week_tables ->
  forall r, In r (rows db name) -> week_in_range r.

(** No table of [db'] has a row that [db] has not. *)
Definition rows_within (db' db : database) : Prop :=
  forall name r, In r (rows db' name) -> In r (rows db name).

(** *** Rows and statements the examples use *)

Definition sample_context : context :=
  {| current_time := 1000; random_uuid := "run-1" |}.

Definition game (week : Z) : row :=
  [("season", Int 2025); ("week", Int week); ("team", Text "NYJ");
   ("opp", Text "NE"); ("home", Boolean true)].

Definition line (moneyline : value) : row :=
  [("season", Int 2025); ("week", Int 1); ("game_id", Text "g1");
   ("team", Text "NYJ"); ("opp", Text "NE"); ("moneyline", moneyline)].

(** *** Players and the rows that refer to them *)

(** [where player_id = pid] *)
Definition player_is (pid : string) (r : row) : bool :=
  value_eqb (get "player_id" r) (Text pid).

(** [delete from players where player_id = pid] *)
Definition delete_player (tables : list table) (pid : string)
  (db : database) : result database :=
  delete tables "players" (player_is pid) db.

(** The tables whose [player_id] refers to [players]. *)
Definition player_tables : list string :=
  ["news"; "rosters"; "waiver_suggestions"].

Definition player (pid name : string) : row :=
  [("player_id", Text pid); ("position", Text "WR"); ("team", Null);
   ("name", Text name)].

Definition news_item (pid : string) (ts : Z) : row :=
  [("player_id", Text pid); ("ts", Timestamptz ts);
   ("headline", Text "questionable")].

Definition roster_slot (pid : string) : row :=
  [("league_id", Text "L1"); ("user_id", Uuid "user-1");
   ("player_id", Text pid); ("slot", Text "FLEX");
   ("season", Int 2025); ("week", Int 3)].

Definition suggestion (pid : string) : row :=
  [("league_id", Text "L1"); ("season", Int 2025); ("week", Int 3);
   ("player_id", Text pid); ("evor", Numeric 1.5); ("reason", Null);
   ("created_at", Timestamptz 900)].

Definition sample_league : database :=
  <["waiver_suggestions" := [suggestion "p2"; suggestion "p1"]]>
    (<["rosters" := [roster_slot "p1"; roster_slot "p2"]]>
       (<["news" := [news_item "p1" 10; news_item "p2" 11;
                     news_item "p1" 12]]>
          (<["players" := [player "p1" "Ann"; player "p2" "Bob"]]> ∅))).

(** *** Runs *)

(** A run still open, and a run closed. *)
Definition run_open (r : row) : Prop :=
  get "status" r = Text "started" /\ get "ended_at" r = Null.

Definition run_closed (r : row) : Prop :=
  exists o t, get "status" r = Text (outcome_text o)
              /\ get "ended_at" r = Timestamptz t.

(** The state that must not be observed: started, yet ended. *)
Definition partial_run (r : row) : Prop :=
  get "status" r = Text "started" /\ get "ended_at" r <> Null.

Definition run_consistent (r : row) : Prop :=
  has_column "status" r = true /\ has_column "ended_at" r = true
  /\ (run_open r \/ run_closed r).

(** No state the store can be brought into shows a partial run. *)
Definition never_partial (tables : list table) : Prop :=
  forall db, reachable tables db ->
  forall r, In r (rows db "model_runs") -> ~ partial_run r.

Definition database_of (r : result database) : database :=
  match r with
  | Ok db => db
  | Error _ => ∅
  end.

Definition ledger_opened : database :=
  database_of
    (open_run schema_public sample_context "train" (Int 2025) (Int 3) ∅).

Definition ledger_closed : database :=
  database_of
    (close_run schema_public sample_context "run-1" failed
       (Jsonb "{}") ledger_opened).

Definition ended_run : row :=
  [("stage", Text "train"); ("ended_at", Timestamptz 7)].

(** *** Cached predictions *)

Definition prediction (pk sk : string) (valid_until : Z) : row :=
  [("pk", Text pk); ("sk", Text sk); ("p50", Numeric 11.5);
   ("lo", Numeric 7.0); ("hi", Numeric 16.0);
   ("valid_until", Timestamptz valid_until)].

Definition sample_cache : database :=
  <["pred_cache" :=
      [prediction "season#2025#week#3" "player#p1" 500;
       prediction "season#2025#week#3" "player#p2" 2000]]> ∅.


(** *** Stored rows against their declaration *)

Definition declares_not_null (k : column_constraint) : bool :=
  match k with NOT_NULL | PRIMARY_KEY => true | _ => false end.

(** A column that may not hold [NULL]: declared [not null], or part of
    the primary key. *)
Definition not_null_column (t : table) (c : column) : bool :=
  existsb declares_not_null (col_constraints c)
  || existsb (String.eqb (col_name c)) (tbl_primary_key t).

(** A value of the type [ty], or [NULL]. *)
Definition value_fits (ty : sqltype) (v : value) : Prop :=
  match v with
  | Null => True
  | Text _ => ty = TEXT
  | Int z => ty = INT /\ int4_min <= z <= int4_max
  | Numeric _ => ty = NUMERIC
  | Boolean _ => ty = BOOLEAN
  | Timestamptz _ => ty = TIMESTAMPTZ
  | Uuid _ => ty = UUID
  | Jsonb _ => ty = JSONB
  end.

(** A check holds on a row when it is true or unknown. *)
Definition check_holds (r : row) (e : expr) : Prop :=
  eval r e = Ok (Boolean true) \/ eval r e = Ok Null.

Definition row_conforms (t : table) (r : row) : Prop :=
  List.map fst r = List.map col_name (tbl_columns t)
  /\ forall c, In c (tbl_columns t) ->
       has_type (col_type c) (get (col_name c) r) = Ok tt
       /\ (not_null_column t c = true -> get (col_name c) r <> Null)
       /\ (forall e, In (CHECK e) (col_constraints c) -> check_holds r e).

(** Two rows are the same stored row when they sit at the same place. *)
Definition keys_identify (key : list string) (rs : list row) : Prop :=
  forall i j a b,
    nth_error rs i = Some a -> nth_error rs j = Some b ->
    same_key key a b = true -> i = j.

(** Every table of [db'] is what a filter leaves of it in [db]. *)
Definition rows_filtered (db' db : database) : Prop :=
  forall name, exists keep : row -> bool,
    rows db' name = List.filter keep (rows db name).

(** *** Running statements one after the other *)

Fixpoint run (tables : list table) (ctx : context) (ss : list statement)
  (db : database) : result database :=
  match ss with
  | [] => Ok db
  | s :: ss' => let* db' := exec tables ctx s db in run tables ctx ss' db'
  end.

Definition league_statements : list statement :=
  [ INSERT "players" (player "p1" "Ann");
    INSERT "players" (player "p2" "Bob");
    INSERT "news" (news_item "p1" 10);
    INSERT "news" (news_item "p2" 11);
    INSERT "rosters" (roster_slot "p1");
    INSERT "waiver_suggestions" (suggestion "p2");
    INSERT "schedule" (game 3);
    INSERT "odds" (line (Int 150));
    UPDATE "schedule" (fun _ => true) [("week", Int 4)];
    DELETE "news" (fun r => value_eqb (get "ts" r) (Timestamptz 11)) ].

Definition league : database :=
  database_of (run schema_public sample_context league_statements ∅).

(** *** The script without its checks *)

Definition is_check (k : column_constraint) : bool :=
  match k with CHECK _ => true | _ => false end.

Definition strip_checks (t : table) : table :=
  Table (tbl_name t)
    (List.map
       (fun c => Column (col_name c) (col_type c)
                   (List.filter (fun k => negb (is_check k))
                      (col_constraints c)))
       (tbl_columns t))
    (tbl_primary_key t).

(** The declaration of a table of [tables], by name. *)
Definition table_named (tables : list table) (name : string) : table :=
  match find_table tables name with
  | Ok t => t
  | Error _ => Table name [] []
  end.

(** *** References *)

Definition player_id_column : column :=
  Column "player_id" TEXT [NOT_NULL; references_players].

(** Every row that refers to a player finds it. *)
Definition references_met (db : database) : Prop :=
  forall name, In name player_tables ->
  forall r, In r (rows db name) ->
    is_null (get "player_id" r)
    || existsb (fun p => value_eqb (get "player_id" p) (get "player_id" r))
         (rows db "players") = true.

(** The first column of [t] called [name]. *)
Definition column_named (t : table) (name : string) : option column :=
  List.find (fun c => String.eqb (col_name c) name) (tbl_columns t).

(** What an insert stores in a column it was given no value for. *)
Definition default_value (ctx : context) (c : column) : value :=
  match default_of (col_constraints c) with
  | Some d => eval_default ctx d
  | None => Null
  end.

(** The rows of the players table an update would leave. *)
Definition updated (where_ : row -> bool) (set : row) (rs : list row)
  : list row :=
  List.map (fun r => if where_ r then assign set r else r) rs.

(** *** The view, row by row *)



(** [where position = ...] *)
Definition plays (position : string) (r : row) : bool :=
  value_eqb (get "position" r) (Text position).


End Sql.

(** * Properties of the trigger routes *)

Module RoutesSpec.
Import Js Routes.

Lemma falsy_false (token : option string) :
  falsy token = false <-> exists t, token = Some t /\ t <> "".
Proof.
  destruct token as [t|]; simpl.
  - rewrite <- not_true_iff_false, String.eqb_eq. split.
    + intros Hne. exists t. split; [reflexivity | exact Hne].
    + intros (t' & [= <-] & Hne). exact Hne.
  - split; [discriminate | intros (t & Ht & _); discriminate].
Qed.

Lemma strict_ne_false (a b : option string) :
  strict_ne a b = false <-> exists t, a = Some t /\ b = Some t.
Proof.
  destruct a as [x|], b as [y|]; simpl;
    try (split; [discriminate | intros (t & ? & ?); discriminate]).
  rewrite negb_false_iff, String.eqb_eq. split.
  - intros ->. exists y. split; reflexivity.
  - intros (t & [= ->] & [= ->]). reflexivity.
Qed.

(** The gate opens exactly for a non-empty token equal to the
    configured secret. *)
Lemma gate_opens_iff (env : ProcessEnv) (h : Headers) :
  requireTriggerToken env h = None <->
  exists t, Headers_get h "x-trigger-token" = Some t
            /\ t <> "" /\ TRIGGER_TOKEN env = Some t.
Proof.
  unfold requireTriggerToken.
  destruct (falsy _ || strict_ne _ _) eqn:E.
  - split; [discriminate |].
    intros (t & Hget & Hne & Hsecret).
    apply orb_true_iff in E as [E | E].
    + assert (falsy (Headers_get h "x-trigger-token") = false) as F
        by (apply falsy_false; eauto).
      congruence.
    + assert (strict_ne (Headers_get h "x-trigger-token")
                (TRIGGER_TOKEN env) = false) as F
        by (apply strict_ne_false; eauto).
      congruence.
  - split; [intros _ | reflexivity].
    apply orb_false_iff in E as [E1 E2].
    apply falsy_false in E1 as (t & Hget & Hne).
    apply strict_ne_false in E2 as (t' & Hget' & Hsecret).
    exists t. rewrite Hget in Hget'. injection Hget' as <-. auto.
Qed.

(** Whenever the gate closes, it answers 401 Unauthorized. *)
Lemma gate_closed_is_401 (env : ProcessEnv) (h : Headers) :
  requireTriggerToken env h <> None ->
  requireTriggerToken env h = Some Unauthorized.
Proof.
  unfold requireTriggerToken.
  destruct (falsy _ || strict_ne _ _); [reflexivity | congruence].
Qed.

Lemma gate_closed_routes (env : ProcessEnv) (req : Request) :
  requireTriggerToken env (headers req) = Some Unauthorized ->
  trigger_weekly_POST env req = ([], Resolved Unauthorized)
  /\ waivers_scan_POST env req = ([], Resolved Unauthorized)
  /\ refresh_week_POST env req = ([], Resolved Unauthorized).
Proof.
  intros H.
  unfold trigger_weekly_POST, waivers_scan_POST, refresh_week_POST.
  rewrite H. auto.
Qed.

(** Behind the open gate the two body-reading routes are
    [acknowledge_season_week]. *)
Lemma gate_open_routes (env : ProcessEnv) (req : Request) (t : string) :
  presents req t -> t <> "" -> TRIGGER_TOKEN env = Some t ->
  trigger_weekly_POST env req = acknowledge_season_week req
  /\ waivers_scan_POST env req = acknowledge_season_week req.
Proof.
  intros Hp Hne Hs.
  assert (requireTriggerToken env (headers req) = None) as G
    by (apply gate_opens_iff; exists t; auto).
  unfold trigger_weekly_POST, waivers_scan_POST. rewrite G. auto.
Qed.

(** What [acknowledge_season_week] does with a body that parsed: it
    throws on [null], and acknowledges the [season] and [week] of
    anything else. *)
Lemma acknowledge_parsed (req : Request) (v : jsval) :
  json_outcome req = Resolved v ->
  acknowledge_season_week req =
    match v with
    | JUndefined | JNull => ([BodyRead], Rejected TypeError)
    | _ => ([BodyRead],
            Resolved (acknowledgment (GetV v "season") (GetV v "week")))
    end.
Proof.
  intros H. unfold acknowledge_season_week, Request_json. rewrite H.
  destruct v; reflexivity.
Qed.

(** C1. A request without the x-trigger-token header, or with a value
    other than the configured secret, gets 401 Unauthorized from each of
    the three trigger routes, which do nothing else first: no event is
    performed, the body is not read. *)
Theorem unauthorized_request_gets_401 (env : ProcessEnv) (req : Request) :
  Headers_get (headers req) "x-trigger-token" = None
  \/ (exists t, presents req t /\ TRIGGER_TOKEN env <> Some t) ->
  trigger_weekly_POST env req = ([], Resolved Unauthorized)
  /\ waivers_scan_POST env req = ([], Resolved Unauthorized)
  /\ refresh_week_POST env req = ([], Resolved Unauthorized).
Proof.
  intros H. apply gate_closed_routes, gate_closed_is_401.
  rewrite gate_opens_iff. intros (t & Hget & _ & Hsecret).
  destruct H as [H | (t' & Hp & Hne)].
  - congruence.
  - unfold presents in Hp. congruence.
Qed.

Lemma unauthorized_request_gets_401_witness :
  (trigger_weekly_POST env_configured request_without_token
     = ([], Resolved Unauthorized)
   /\ waivers_scan_POST env_configured request_without_token
     = ([], Resolved Unauthorized)
   /\ refresh_week_POST env_configured request_without_token
     = ([], Resolved Unauthorized))
  /\ (trigger_weekly_POST env_configured
        (request_with "guess" (Resolved season_2025_week_3))
      = ([], Resolved Unauthorized)
      /\ waivers_scan_POST env_configured
        (request_with "guess" (Resolved season_2025_week_3))
      = ([], Resolved Unauthorized)
      /\ refresh_week_POST env_configured
        (request_with "guess" (Resolved season_2025_week_3))
      = ([], Resolved Unauthorized)).
Proof.
  split.
  - apply (unauthorized_request_gets_401 env_configured
             request_without_token).
    left. reflexivity.
  - apply (unauthorized_request_gets_401 env_configured
             (request_with "guess" (Resolved season_2025_week_3))).
    right. exists "guess". split; [reflexivity | discriminate].
Defined.

(** C2. With the secret unset or empty the gate never opens: whatever
    the headers, [requireTriggerToken] answers 401 Unauthorized, never
    [null], and so does every trigger route; a request that presents the
    empty token is no exception. *)
Theorem unset_secret_never_authorizes (env : ProcessEnv) :
  TRIGGER_TOKEN env = None \/ TRIGGER_TOKEN env = Some "" ->
  (forall h : Headers,
     requireTriggerToken env h = Some Unauthorized
     /\ requireTriggerToken env h <> None)
  /\ (forall req : Request,
        trigger_weekly_POST env req = ([], Resolved Unauthorized)
        /\ waivers_scan_POST env req = ([], Resolved Unauthorized)
        /\ refresh_week_POST env req = ([], Resolved Unauthorized))
  /\ (forall req : Request,
        presents req "" ->
        requireTriggerToken env (headers req) = Some Unauthorized).
Proof.
  intros Hsecret.
  assert (forall h, requireTriggerToken env h = Some Unauthorized) as G.
  { intros h. apply gate_closed_is_401. rewrite gate_opens_iff.
    intros (t & _ & Hne & Ht). destruct Hsecret as [Hs | Hs]; congruence. }
  split; [| split].
  - intros h. rewrite G. split; [reflexivity | discriminate].
  - intros req. apply gate_closed_routes, G.
  - intros req _. apply G.
Qed.

Lemma unset_secret_never_authorizes_witness :
  requireTriggerToken env_unset
    (headers (request_with "s3cret" (Rejected SyntaxError)))
    = Some Unauthorized
  /\ requireTriggerToken env_empty
       (headers (request_with "" (Rejected SyntaxError)))
     = Some Unauthorized.
Proof.
  split.
  - assert (TRIGGER_TOKEN env_unset = None
            \/ TRIGGER_TOKEN env_unset = Some "") as H
      by (left; reflexivity).
    destruct (unset_secret_never_authorizes env_unset H) as (G & _ & _).
    apply G.
  - assert (TRIGGER_TOKEN env_empty = None
            \/ TRIGGER_TOKEN env_empty = Some "") as H
      by (right; reflexivity).
    destruct (unset_secret_never_authorizes env_empty H) as (_ & _ & G).
    apply G. reflexivity.
Defined.

(** C3. A request with the correct token whose body is absent or does
    not parse ([req.json()] rejects, with whatever error) is answered
    200 by /api/trigger-weekly and /api/waivers/scan; the body of the
    answer is the text of [{ok: true}], in which season and week do not
    occur; the rejection goes no further. *)
Theorem unparsable_body_is_acknowledged
  (env : ProcessEnv) (req : Request) (t : string) (e : exn) :
  presents req t -> t <> "" -> TRIGGER_TOKEN env = Some t ->
  json_outcome req = Rejected e ->
  let ack := {| body := "{" ++ dq "ok" ++ ":true}"; status := 200 |} in
  trigger_weekly_POST env req = ([BodyRead], Resolved ack)
  /\ waivers_scan_POST env req = ([BodyRead], Resolved ack)
  /\ ack = acknowledgment JUndefined JUndefined.
Proof.
  intros Hp Hne Hs Hbody ack.
  destruct (gate_open_routes env req t Hp Hne Hs) as [-> ->].
  unfold acknowledge_season_week, Request_json. rewrite Hbody.
  repeat split.
Qed.

Lemma unparsable_body_is_acknowledged_witness :
  let ack := {| body := "{" ++ dq "ok" ++ ":true}"; status := 200 |} in
  trigger_weekly_POST env_configured
    (request_with "s3cret" (Rejected SyntaxError))
    = ([BodyRead], Resolved ack)
  /\ waivers_scan_POST env_configured
       (request_with "s3cret" (Rejected SyntaxError))
     = ([BodyRead], Resolved ack)
  /\ ack = acknowledgment JUndefined JUndefined.
Proof.
  apply (unparsable_body_is_acknowledged env_configured
           (request_with "s3cret" (Rejected SyntaxError))
           "s3cret" SyntaxError);
    [reflexivity | discriminate | reflexivity | reflexivity].
Defined.

(** C4. A request with the correct token whose body is
    [{"season": 2025, "week": 3}] is answered 200 by /api/trigger-weekly
    with the text of [{ok: true, season: 2025, week: 3}]. *)
Theorem season_and_week_are_echoed
  (env : ProcessEnv) (req : Request) (t : string) :
  presents req t -> t <> "" -> TRIGGER_TOKEN env = Some t ->
  json_outcome req
    = Resolved (JObj [("season", JNum 2025); ("week", JNum 3)]) ->
  trigger_weekly_POST env req
    = ([BodyRead],
       Resolved {| body := "{" ++ dq "ok" ++ ":true,"
                               ++ dq "season" ++ ":2025,"
                               ++ dq "week" ++ ":3}";
                   status := 200 |})
  /\ trigger_weekly_POST env req
     = ([BodyRead], Resolved (acknowledgment (JNum 2025) (JNum 3))).
Proof.
  intros Hp Hne Hs Hbody.
  destruct (gate_open_routes env req t Hp Hne Hs) as [-> _].
  rewrite (acknowledge_parsed req _ Hbody). split; reflexivity.
Qed.

Lemma season_and_week_are_echoed_witness :
  trigger_weekly_POST env_configured
    (request_with "s3cret" (Resolved season_2025_week_3))
    = ([BodyRead],
       Resolved {| body := "{" ++ dq "ok" ++ ":true,"
                               ++ dq "season" ++ ":2025,"
                               ++ dq "week" ++ ":3}";
                   status := 200 |})
  /\ trigger_weekly_POST env_configured
       (request_with "s3cret" (Resolved season_2025_week_3))
     = ([BodyRead], Resolved (acknowledgment (JNum 2025) (JNum 3))).
Proof.
  apply (season_and_week_are_echoed env_configured
           (request_with "s3cret" (Resolved season_2025_week_3))
           "s3cret");
    [reflexivity | discriminate | reflexivity | reflexivity].
Defined.

(** Whatever a parsed body other than [null] holds under [season] and
    [week], of any type and any size, the two routes put it in the 200
    answer as it is; a property that is missing is left out. *)
Lemma parsed_body_is_echoed
  (env : ProcessEnv) (req : Request) (t : string) (v : jsval) :
  presents req t -> t <> "" -> TRIGGER_TOKEN env = Some t ->
  json_outcome req = Resolved v ->
  v <> JNull -> v <> JUndefined ->
  let ack := acknowledgment (GetV v "season") (GetV v "week") in
  trigger_weekly_POST env req = ([BodyRead], Resolved ack)
  /\ waivers_scan_POST env req = ([BodyRead], Resolved ack).
Proof.
  intros Hp Hne Hs Hbody Hnull Hundef ack.
  destruct (gate_open_routes env req t Hp Hne Hs) as [-> ->].
  rewrite (acknowledge_parsed req v Hbody).
  destruct v; try congruence; split; reflexivity.
Qed.

Lemma string_app_assoc (a b c : string) : (a ++ b) ++ c = a ++ b ++ c.
Proof.
  induction a as [| x a IH]; [reflexivity |].
  change (String x ((a ++ b) ++ c) = String x (a ++ b ++ c)).
  rewrite IH. reflexivity.
Qed.


(** A body that is the JSON text [null] parses, and then the
    destructuring throws: both routes reject with a TypeError after
    reading the body, and no 200 answer is made. *)
Lemma null_body_throws
  (env : ProcessEnv) (req : Request) (t : string) :
  presents req t -> t <> "" -> TRIGGER_TOKEN env = Some t ->
  json_outcome req = Resolved JNull ->
  trigger_weekly_POST env req = ([BodyRead], Rejected TypeError)
  /\ waivers_scan_POST env req = ([BodyRead], Rejected TypeError).
Proof.
  intros Hp Hne Hs Hbody.
  destruct (gate_open_routes env req t Hp Hne Hs) as [-> ->].
  rewrite (acknowledge_parsed req JNull Hbody). split; reflexivity.
Qed.

(** C10. At the request with the correct token and the body [null],
    which parses as JSON, neither /api/trigger-weekly nor
    /api/waivers/scan answers 200 with the season and week echoed: the
    gate opens, the body is read, and each handler rejects with a
    TypeError. *)
Theorem null_body_is_not_acknowledged :
  json_outcome (request_with "s3cret" (Resolved JNull)) = Resolved JNull
  /\ requireTriggerToken env_configured
       (headers (request_with "s3cret" (Resolved JNull))) = None
  /\ trigger_weekly_POST env_configured
       (request_with "s3cret" (Resolved JNull))
     = ([BodyRead], Rejected TypeError)
  /\ waivers_scan_POST env_configured
       (request_with "s3cret" (Resolved JNull))
     = ([BodyRead], Rejected TypeError).
Proof. repeat split. Qed.

(** ** Beyond the claims: the gate and the routes case by case *)

(** X1. The gate has two answers.  It lets the caller proceed exactly
    when the request carries a non-empty x-trigger-token equal to the
    configured secret; in every other case it answers 401
    Unauthorized. *)
Theorem gate_decides_by_the_secret (env : ProcessEnv) (h : Headers) :
  (requireTriggerToken env h = None <->
   exists t, Headers_get h "x-trigger-token" = Some t
             /\ t <> "" /\ TRIGGER_TOKEN env = Some t)
  /\ (requireTriggerToken env h <> None <->
      requireTriggerToken env h = Some Unauthorized).
Proof.
  split; [apply gate_opens_iff |].
  split; [apply gate_closed_is_401 |].
  intros H. rewrite H. discriminate.
Qed.

(** X2. /api/refresh-week answers from the headers alone.  It never
    reads the body and never rejects; it answers 200 with the text of
    [{ok: true}] exactly when the gate opens and 401 otherwise, whatever
    the body is, parsed or not. *)
Theorem refresh_week_never_reads_the_body (env : ProcessEnv) (h : Headers)
  (o o' : settled jsval) :
  refresh_week_POST env (request_of h o)
    = refresh_week_POST env (request_of h o')
  /\ (requireTriggerToken env h = None ->
      refresh_week_POST env (request_of h o) = ([], Resolved ok_only))
  /\ (requireTriggerToken env h <> None ->
      refresh_week_POST env (request_of h o) = ([], Resolved Unauthorized)).
Proof.
  unfold refresh_week_POST. simpl.
  split; [reflexivity | split].
  - intros ->. reflexivity.
  - intros H. rewrite (gate_closed_is_401 env h H). reflexivity.
Qed.

Lemma refresh_week_never_reads_the_body_witness :
  refresh_week_POST env_configured
    (request_of [("x-trigger-token", "s3cret")] (Resolved JNull))
  = ([], Resolved ok_only)
  /\ refresh_week_POST env_configured
       (request_of [("x-trigger-token", "nope")] (Rejected SyntaxError))
     = ([], Resolved Unauthorized).
Proof.
  split.
  - apply (refresh_week_never_reads_the_body env_configured
             [("x-trigger-token", "s3cret")] (Resolved JNull)
             (Resolved JNull)).
    reflexivity.
  - apply (refresh_week_never_reads_the_body env_configured
             [("x-trigger-token", "nope")] (Rejected SyntaxError)
             (Rejected SyntaxError)).
    discriminate.
Defined.

(** X3. Every run of /api/trigger-weekly and /api/waivers/scan is one of
    three.  Behind the closed gate: 401, nothing read.  Behind the open
    gate the body is read once, and then either the handler rejects
    with a TypeError, which happens exactly when the body parsed to
    [null], or it answers with status 200.  A body that did not parse
    never makes the handler reject. *)
Theorem body_routes_outcomes (env : ProcessEnv) (req : Request) :
  trigger_weekly_POST env req = waivers_scan_POST env req
  /\ (requireTriggerToken env (headers req) <> None ->
      trigger_weekly_POST env req = ([], Resolved Unauthorized))
  /\ (requireTriggerToken env (headers req) = None ->
      exists out,
        trigger_weekly_POST env req = ([BodyRead], out)
        /\ (out = Rejected TypeError <->
            json_outcome req = Resolved JNull
            \/ json_outcome req = Resolved JUndefined)
        /\ (out <> Rejected TypeError ->
            exists r, out = Resolved r /\ status r = 200)).
Proof.
  split; [reflexivity | split].
  - intros H. unfold trigger_weekly_POST.
    rewrite (gate_closed_is_401 env _ H). reflexivity.
  - intros H. unfold trigger_weekly_POST. rewrite H.
    unfold acknowledge_season_week, Request_json.
    destruct (json_outcome req) as [v | e].
    + destruct v; simpl; eexists; (split; [reflexivity |]);
        (split; [split; [intros [=] | intros [[=] | [=]]]; auto |]);
        try (intros _; eexists; split; reflexivity);
        intros Hne; contradiction Hne; reflexivity.
    + simpl. eexists. split; [reflexivity |].
      split; [split; [intros [=] | intros [[=] | [=]]] |].
      intros _. eexists. split; reflexivity.
Qed.



(** X5. A key the parsed body does not have is left out of the answer,
    not sent as null.  Without both keys (an empty object, or a body
    that is an array, a string, a number or a boolean) the answer is the
    text of [{ok: true}]; with [week] alone it is [ok] and that week. *)
Theorem missing_keys_are_left_out
  (env : ProcessEnv) (req : Request) (t : string) (v : jsval) :
  presents req t -> t <> "" -> TRIGGER_TOKEN env = Some t ->
  json_outcome req = Resolved v ->
  v <> JNull -> v <> JUndefined ->
  GetV v "season" = JUndefined ->
  (GetV v "week" = JUndefined ->
   trigger_weekly_POST env req = ([BodyRead], Resolved ok_only)
   /\ waivers_scan_POST env req = ([BodyRead], Resolved ok_only))
  /\ (forall w, SerializeJSONProperty (GetV v "week") = Some w ->
      let answer :=
        {| body := "{" ++ dq "ok" ++ ":true,"
                       ++ dq "week" ++ ":" ++ w ++ "}";
           status := 200 |} in
      trigger_weekly_POST env req = ([BodyRead], Resolved answer)
      /\ waivers_scan_POST env req = ([BodyRead], Resolved answer)).
Proof.
  intros Hp Hne Hs Hbody Hnull Hundef Hseason.
  destruct (parsed_body_is_echoed env req t v Hp Hne Hs Hbody Hnull Hundef)
    as [-> ->].
  rewrite Hseason. split.
  - intros ->. split; reflexivity.
  - intros w Hw answer.
    assert (acknowledgment JUndefined (GetV v "week") = answer) as ->.
    { unfold answer, acknowledgment, JSON_stringify. simpl. rewrite Hw.
      cbn [join]. rewrite !string_app_assoc. reflexivity. }
    split; reflexivity.
Qed.

Lemma missing_keys_are_left_out_witness :
  (trigger_weekly_POST env_configured
     (request_with "s3cret" (Resolved (JArr [JNum 2025; JNum 3])))
   = ([BodyRead], Resolved ok_only)
   /\ waivers_scan_POST env_configured
        (request_with "s3cret" (Resolved (JArr [JNum 2025; JNum 3])))
      = ([BodyRead], Resolved ok_only))
  /\ (let answer :=
        {| body := "{" ++ dq "ok" ++ ":true,"
                       ++ dq "week" ++ ":" ++ dq "playoffs" ++ "}";
           status := 200 |} in
      trigger_weekly_POST env_configured
        (request_with "s3cret" (Resolved week_only))
      = ([BodyRead], Resolved answer)
      /\ waivers_scan_POST env_configured
           (request_with "s3cret" (Resolved week_only))
         = ([BodyRead], Resolved answer)).
Proof.
  split.
  - apply (missing_keys_are_left_out env_configured
             (request_with "s3cret" (Resolved (JArr [JNum 2025; JNum 3])))
             "s3cret" (JArr [JNum 2025; JNum 3]));
      try reflexivity; discriminate.
  - apply (missing_keys_are_left_out env_configured
             (request_with "s3cret" (Resolved week_only))
             "s3cret" week_only);
      try reflexivity; discriminate.
Defined.

End RoutesSpec.

(** * Properties of the schema *)

Module SqlSpec.
Import Sql.

(** ** The view [odds_implied] *)

Lemma numeric_div_nonzero (x y : Q) :
  ~ (y == 0)%Q -> numeric_div x y = Ok (Numeric (x / y)).
Proof.
  intros Hy. unfold numeric_div.
  destruct (Qeq_bool y 0) eqn:E; [| reflexivity].
  apply Qeq_bool_iff in E. contradiction.
Qed.

Lemma denominator_nonzero (n : Z) :
  0 <= n -> ~ (inject_Z n + 100.0 == 0)%Q.
Proof.
  intros Hn. unfold Qeq, Qplus, inject_Z. simpl. lia.
Qed.

Lemma int4_in_range (z : Z) :
  int4_min <= z <= int4_max -> int4 z = Ok (Int z).
Proof.
  intros [Hlo Hhi]. unfold int4.
  apply Z.leb_le in Hlo, Hhi. rewrite Hlo, Hhi. reflexivity.
Qed.

Lemma int4_Ok (z : Z) (v : value) :
  int4 z = Ok v -> v = Int z /\ int4_min <= z <= int4_max.
Proof.
  unfold int4. destruct (_ && _) eqn:E; [| discriminate].
  intros [= <-]. apply andb_true_iff in E as [Hlo Hhi].
  apply Z.leb_le in Hlo, Hhi. auto.
Qed.

Lemma implied_win_prob_null (r : row) :
  has_column "moneyline" r = true ->
  get "moneyline" r = Null ->
  eval r implied_win_prob = Ok Null.
Proof.
  intros Hc Hm. unfold implied_win_prob. simpl. rewrite Hc, Hm. reflexivity.
Qed.

Lemma implied_win_prob_positive (r : row) (m : Z) :
  has_column "moneyline" r = true ->
  get "moneyline" r = Int m ->
  0 < m ->
  eval r implied_win_prob
  = Ok (Numeric (100.0 / (inject_Z m + 100.0))).
Proof.
  intros Hc Hm Hpos. unfold implied_win_prob. simpl. rewrite Hc, Hm. simpl.
  apply Z.compare_gt_iff in Hpos. rewrite Hpos.
  apply numeric_div_nonzero, denominator_nonzero.
  apply Z.compare_gt_iff in Hpos. lia.
Qed.

Lemma implied_win_prob_not_positive (r : row) (m : Z) :
  has_column "moneyline" r = true ->
  get "moneyline" r = Int m ->
  int4_min < m <= 0 ->
  eval r implied_win_prob
  = Ok (Numeric (inject_Z (- m) / (inject_Z (- m) + 100.0))).
Proof.
  intros Hc Hm [Hlo Hhi]. unfold implied_win_prob. simpl.
  rewrite Hc, Hm. simpl.
  assert ((m ?= 0) <> Datatypes.Gt) as Hcmp
    by (rewrite Z.compare_gt_iff; lia).
  destruct (m ?= 0); try congruence;
    (rewrite int4_in_range by (unfold int4_min, int4_max in *; lia);
     simpl; apply numeric_div_nonzero, denominator_nonzero; lia).
Qed.

(** The least [int] cannot be negated. *)
Lemma implied_win_prob_least_int (r : row) :
  has_column "moneyline" r = true ->
  get "moneyline" r = Int int4_min ->
  eval r implied_win_prob = Error integer_out_of_range.
Proof.
  intros Hc Hm. unfold implied_win_prob. simpl. rewrite Hc, Hm.
  reflexivity.
Qed.

(** On every odds row but one the view computes the probability the
    data model describes, in exact rationals: [NULL] for no moneyline,
    100 / (moneyline + 100) for a positive one, and
    (-moneyline) / ((-moneyline) + 100) otherwise.  The one row left
    out holds the least [int], see [implied_win_prob_least_int]. *)
Lemma implied_win_prob_formula (r : row) :
  has_column "moneyline" r = true ->
  (get "moneyline" r = Null -> eval r implied_win_prob = Ok Null)
  /\ (forall m, get "moneyline" r = Int m -> 0 < m ->
        exists p, eval r implied_win_prob = Ok (Numeric p)
                  /\ (p == 100 / (inject_Z m + 100))%Q)
  /\ (forall m, get "moneyline" r = Int m -> int4_min < m <= 0 ->
        exists p, eval r implied_win_prob = Ok (Numeric p)
                  /\ (p == inject_Z (- m) / (inject_Z (- m) + 100))%Q).
Proof.
  intros Hc. split; [| split].
  - apply implied_win_prob_null, Hc.
  - intros m Hm Hpos. eexists. split.
    + apply (implied_win_prob_positive r m Hc Hm Hpos).
    + assert (100.0 == 100)%Q as E by reflexivity. rewrite E. reflexivity.
  - intros m Hm Hrange. eexists. split.
    + apply (implied_win_prob_not_positive r m Hc Hm Hrange).
    + assert (100.0 == 100)%Q as E by reflexivity. rewrite E. reflexivity.
Qed.

Lemma implied_win_prob_examples :
  (exists p, eval [("moneyline", Int 150)] implied_win_prob
             = Ok (Numeric p) /\ (p == 0.40)%Q)
  /\ (exists p, eval [("moneyline", Int (-150))] implied_win_prob
                = Ok (Numeric p) /\ (p == 0.60)%Q)
  /\ eval [("moneyline", Null)] implied_win_prob = Ok Null.
Proof.
  split; [| split].
  - eexists. split; reflexivity.
  - eexists. split; reflexivity.
  - reflexivity.
Qed.

(** C5. The odds table takes a line whose moneyline is the least [int],
    -2147483648; on that row the view cannot negate the moneyline, and
    reading the view fails with "integer out of range" instead of giving
    the probability (-moneyline) / ((-moneyline) + 100). *)
Theorem odds_implied_fails_on_least_moneyline :
  exists db,
    insert schema_public sample_context "odds"
      (line (Int (-2147483648))) ∅ = Ok db
    /\ reachable schema_public db
    /\ select_view odds_implied db = Error integer_out_of_range.
Proof.
  destruct (insert schema_public sample_context "odds"
              (line (Int (-2147483648))) ∅) as [db | e] eqn:E;
    [| vm_compute in E; discriminate E].
  exists db. split; [reflexivity | split].
  - apply (reachable_exec schema_public ∅ db sample_context
             (INSERT "odds" (line (Int (-2147483648))))
             (reachable_empty _) E).
  - vm_compute in E. injection E as <-. vm_compute. reflexivity.
Qed.

(** ** What a checked row satisfies *)

(** Take the first step of a successful sequence of checks apart. *)
Ltac bind_inv H x E :=
  match type of H with
  | result_bind ?m _ = Ok _ =>
      destruct m as [x | ?] eqn:E; simpl in H; [| discriminate H]
  end.

Lemma all_ok_In (checks : list (result unit)) (c : result unit) :
  all_ok checks = Ok tt -> In c checks -> c = Ok tt.
Proof.
  induction checks as [| x xs IH]; simpl; [contradiction |].
  destruct x as [[] | e]; simpl; [| discriminate].
  intros Hxs [<- | Hin]; [reflexivity | apply IH; assumption].
Qed.

Lemma check_row_column (db : database) (t : table) (r : row) (c : column) :
  check_row db t r = Ok tt -> In c (tbl_columns t) ->
  check_column db t r c = Ok tt.
Proof.
  intros H Hin. apply (all_ok_In _ _ H), in_map, Hin.
Qed.

Lemma check_column_constraint
  (db : database) (t : table) (r : row) (c : column)
  (k : column_constraint) :
  check_column db t r c = Ok tt -> In k (col_constraints c) ->
  has_type (col_type c) (get (col_name c) r) = Ok tt
  /\ check_constraint db r (get (col_name c) r) k = Ok tt.
Proof.
  unfold check_column. intros H Hin.
  destruct (has_type _ _) as [[] | e]; simpl in H; [| discriminate].
  destruct (_ && _); simpl in H; [discriminate |].
  split; [reflexivity |].
  apply (all_ok_In _ _ H), in_map, Hin.
Qed.

Lemma Z_compare_cases (a b : Z) :
  (a ?= b) = Datatypes.Lt /\ a < b
  \/ (a ?= b) = Datatypes.Eq /\ a = b
  \/ (a ?= b) = Datatypes.Gt /\ a > b.
Proof.
  destruct (Z.compare_spec a b); [right; left | left | right; right];
    split; auto; lia.
Qed.

(** [check (week between 1 and 23)] on a [not null] int column. *)
Lemma checked_week_in_range (db : database) (t : table) (r : row) :
  check_column db t r week_column = Ok tt -> week_in_range r.
Proof.
  intros H.
  destruct (check_column_constraint db t r week_column NOT_NULL H)
    as [Hty Hnn]; [simpl; auto |].
  destruct (check_column_constraint db t r week_column
              week_between_1_and_23 H) as [_ Hck]; [simpl; auto |].
  simpl in Hty, Hnn, Hck.
  destruct (has_column "week" r); [| discriminate].
  destruct (get "week" r) as [| | w | | | | |] eqn:Hw; try discriminate.
  exists w. split; [exact Hw |].
  simpl in Hck.
  destruct (Z_compare_cases w 1) as [[E ?] | [[E ?] | [E ?]]];
    rewrite E in Hck;
    destruct (Z_compare_cases w 23) as [[E' ?] | [[E' ?] | [E' ?]]];
    rewrite E' in Hck; simpl in Hck; try discriminate; lia.
Qed.

Lemma week_column_declared (name : string) (t : table) :
  In name week_tables ->
  find_table schema_public name = Ok t ->
  In week_column (tbl_columns t).
Proof.
  intros Hin Hfind. simpl in Hin.
  destruct Hin as [<- | [<- | [<- | [<- | [<- | []]]]]];
    vm_compute in Hfind; injection Hfind as <-; simpl; auto 10.
Qed.

Lemma find_table_name (tables : list table) (name : string) (t : table) :
  find_table tables name = Ok t -> tbl_name t = name.
Proof.
  unfold find_table.
  destruct (List.find _ tables) as [t' |] eqn:E; [| discriminate].
  intros [= <-]. apply find_some in E as [_ E].
  apply String.eqb_eq, E.
Qed.

Lemma rows_insert_eq (db : database) (name : string) (rs : list row) :
  rows (<[name := rs]> db) name = rs.
Proof. unfold rows. apply lookup_total_insert_eq. Qed.

Lemma rows_insert_ne (db : database) (name other : string)
  (rs : list row) :
  name <> other -> rows (<[name := rs]> db) other = rows db other.
Proof. intros H. unfold rows. apply lookup_total_insert_ne, H. Qed.

Lemma rows_empty (name : string) : rows ∅ name = [].
Proof. unfold rows, database. rewrite lookup_total_empty. reflexivity. Qed.

(** The rows of a table after an accepted [insert]. *)
Lemma insert_Ok (tables : list table) (ctx : context) (name : string)
  (assignments : row) (db db' : database) :
  insert tables ctx name assignments db = Ok db' ->
  exists t,
    find_table tables name = Ok t
    /\ check_row db t (new_row ctx t assignments) = Ok tt
    /\ db' = <[name := (rows db name ++ [new_row ctx t assignments])%list]> db.
Proof.
  unfold insert. intros H.
  bind_inv H t Ht. bind_inv H u1 Hk. bind_inv H u2 Hck. bind_inv H u3 Hu.
  injection H as <-. destruct u2. exists t. auto.
Qed.

(** The rows of a table after an accepted [update]. *)
Lemma update_Ok (tables : list table) (name : string)
  (where_ : row -> bool) (set : row) (db db' : database) :
  update tables name where_ set db = Ok db' ->
  exists t,
    find_table tables name = Ok t
    /\ (forall r, In r (rows db name) -> where_ r = true ->
          check_row db t (assign set r) = Ok tt)
    /\ db' = <[name := List.map (fun r => if where_ r then assign set r
                                          else r) (rows db name)]> db.
Proof.
  unfold update. intros H.
  bind_inv H t Ht. bind_inv H u1 Hk. bind_inv H u2 Hck. bind_inv H u3 Hu.
  bind_inv H u4 Hfk.
  injection H as <-. exists t. split; [reflexivity | split; [| reflexivity]].
  intros r Hin Hw. destruct u2.
  pose proof (all_ok_In _ _ Hck
                (in_map (fun r => if where_ r
                                  then check_row db t (assign set r)
                                  else Ok tt) _ r Hin)) as Hr.
  simpl in Hr. rewrite Hw in Hr. exact Hr.
Qed.

(** ** Deleting only removes *)

Lemma rows_within_refl (db : database) : rows_within db db.
Proof. intros name r H. exact H. Qed.

Lemma rows_within_trans (a b c : database) :
  rows_within a b -> rows_within b c -> rows_within a c.
Proof. intros Hab Hbc name r H. apply Hbc, Hab, H. Qed.

Lemma rows_within_filter (db : database) (name : string)
  (keep : row -> bool) :
  rows_within (<[name := List.filter keep (rows db name)]> db) db.
Proof.
  intros other r H. destruct (string_dec name other) as [<- | Hne].
  - rewrite rows_insert_eq in H. apply filter_In in H. apply H.
  - rewrite rows_insert_ne in H by exact Hne. exact H.
Qed.

Lemma fold_from_error {X : Type} (g : database -> X -> result database)
  (l : list X) (e : error) :
  fold_left (fun acc x => let* d := acc in g d x) l (Error e) = Error e.
Proof. induction l as [| x l IH]; simpl; [reflexivity | exact IH]. Qed.

Lemma delete_rows_within (fuel : nat) (tables : list table) :
  forall (name : string) (doomed : row -> bool) (db db' : database),
    delete_rows fuel tables name doomed db = Ok db' ->
    rows_within db' db.
Proof.
  induction fuel as [| fuel IH]; intros name doomed db db' H;
    [discriminate |].
  simpl in H.
  pose proof (rows_within_filter db name (fun r => negb (doomed r))) as H0.
  revert H0 H.
  generalize (<[name := List.filter (fun r => negb (doomed r))
                          (rows db name)]> db).
  generalize (List.filter doomed (rows db name)) as gone.
  intros gone.
  induction (referencing tables name) as [| [[[ct cc] rc] action] fks IHf];
    intros d0 H0 H; simpl in H.
  - injection H as <-. exact H0.
  - destruct action.
    + destruct (existsb _ (rows d0 ct)).
      * rewrite fold_from_error in H. discriminate.
      * apply (IHf d0 H0 H).
    + destruct (delete_rows fuel tables ct _ d0) as [d1 | e] eqn:E.
      * apply (IHf d1); [| exact H].
        apply (rows_within_trans _ d0); [| exact H0].
        apply (IH _ _ _ _ E).
      * rewrite fold_from_error in H. discriminate.
Qed.

(** ** Weeks under the script with the checks *)

Lemma inserted_week_in_range (ctx : context) (name : string)
  (assignments : row) (db db' : database) :
  In name week_tables ->
  insert schema_public ctx name assignments db = Ok db' ->
  exists r, rows db' name = (rows db name ++ [r])%list
            /\ week_in_range r.
Proof.
  intros Hin H. apply insert_Ok in H as (t & Ht & Hck & ->).
  eexists. split; [apply rows_insert_eq |].
  apply (checked_week_in_range db t).
  apply (check_row_column _ _ _ _ Hck).
  apply (week_column_declared name t Hin Ht).
Qed.

Lemma updated_week_in_range (name : string) (where_ : row -> bool)
  (set : row) (db db' : database) :
  In name week_tables ->
  update schema_public name where_ set db = Ok db' ->
  rows db' name
    = List.map (fun r => if where_ r then assign set r else r)
        (rows db name)
  /\ forall r, In r (rows db name) -> where_ r = true ->
               week_in_range (assign set r).
Proof.
  intros Hin H. apply update_Ok in H as (t & Ht & Hck & ->).
  split; [apply rows_insert_eq |].
  intros r Hr Hw.
  apply (checked_week_in_range db t).
  apply (check_row_column _ _ _ _ (Hck r Hr Hw)).
  apply (week_column_declared name t Hin Ht).
Qed.

Lemma exec_keeps_weeks (ctx : context) (s : statement)
  (db db' : database) :
  weeks_in_range db ->
  exec schema_public ctx s db = Ok db' ->
  weeks_in_range db'.
Proof.
  intros Hdb H name Hname r Hr.
  destruct s as [tbl a | tbl w set | tbl w]; simpl in H.
  - destruct (string_dec tbl name) as [-> | Hne].
    + destruct (inserted_week_in_range _ _ _ _ _ Hname H) as (r' & E & Hr').
      rewrite E in Hr. apply in_app_or in Hr as [Hr | [<- | []]].
      * apply (Hdb name Hname r Hr).
      * exact Hr'.
    + apply insert_Ok in H as (t & _ & _ & ->).
      rewrite rows_insert_ne in Hr by exact Hne.
      apply (Hdb name Hname r Hr).
  - destruct (string_dec tbl name) as [-> | Hne].
    + destruct (updated_week_in_range _ _ _ _ _ Hname H) as (E & Hck).
      rewrite E in Hr. apply in_map_iff in Hr as (r0 & <- & Hr0).
      destruct (w r0) eqn:Hw.
      * apply (Hck r0 Hr0 Hw).
      * apply (Hdb name Hname r0 Hr0).
    + apply update_Ok in H as (t & _ & _ & ->).
      rewrite rows_insert_ne in Hr by exact Hne.
      apply (Hdb name Hname r Hr).
  - apply (Hdb name Hname r).
    apply (delete_rows_within _ _ _ _ _ _ H name r Hr).
Qed.

(** In a database created by the script with the checks, whatever
    statements it has accepted, every row of schedule, defense_vs_pos,
    odds, rosters and waiver_suggestions has its week in 1 to 23. *)
Lemma public_schema_keeps_weeks (db : database) :
  reachable schema_public db -> weeks_in_range db.
Proof.
  induction 1 as [| db db' ctx s _ IH H].
  - intros name _ r Hr. rewrite rows_empty in Hr. destruct Hr.
  - apply (exec_keeps_weeks ctx s db db' IH H).
Qed.

(** It refuses the insert of a row whose week is outside 1 to 23. *)
Lemma public_schema_rejects_insert (ctx : context) (name : string)
  (assignments : row) (db : database) (w : Z) :
  In name week_tables ->
  has_column "week" assignments = true ->
  get "week" assignments = Int w ->
  ~ 1 <= w <= 23 ->
  exists e, insert schema_public ctx name assignments db = Error e.
Proof.
  intros Hin Hc Hw Hout.
  destruct (insert schema_public ctx name assignments db) as [db' | e] eqn:E;
    [| exists e; reflexivity].
  exfalso.
  pose proof E as E'. apply insert_Ok in E' as (t & Ht & _ & Hdb').
  destruct (inserted_week_in_range _ _ _ _ _ Hin E) as (r & Hr & w' & Hw' & ?).
  rewrite Hdb', rows_insert_eq in Hr. apply app_inv_head in Hr.
  injection Hr as <-.
  simpl in Hin.
  destruct Hin as [<- | [<- | [<- | [<- | [<- | []]]]]];
    vm_compute in Ht; injection Ht as <-;
    simpl in Hw'; rewrite Hc, Hw in Hw'; injection Hw' as <-; lia.
Qed.

Lemma get_assign (set r : row) (name : string) :
  get name (assign set r)
  = if has_column name r
    then (if has_column name set then get name set else get name r)
    else Null.
Proof.
  induction r as [| [k v] r IH]; simpl; [reflexivity |].
  destruct (String.eqb k name) eqn:E; simpl.
  - apply String.eqb_eq in E as ->. destruct (has_column name set);
      reflexivity.
  - exact IH.
Qed.

Lemma has_column_assign (set r : row) (name : string) :
  has_column name (assign set r) = has_column name r.
Proof.
  induction r as [| [k v] r IH]; simpl; [reflexivity |].
  rewrite IH. reflexivity.
Qed.

(** It refuses the update that would give a row such a week. *)
Lemma public_schema_rejects_update (name : string)
  (where_ : row -> bool) (set : row) (db : database) (w : Z) (r : row) :
  In name week_tables ->
  In r (rows db name) -> where_ r = true ->
  has_column "week" set = true ->
  get "week" set = Int w ->
  ~ 1 <= w <= 23 ->
  exists e, update schema_public name where_ set db = Error e.
Proof.
  intros Hin Hr Hwhere Hc Hw Hout.
  destruct (update schema_public name where_ set db) as [db' | e] eqn:E;
    [| exists e; reflexivity].
  exfalso.
  destruct (updated_week_in_range _ _ _ _ _ Hin E) as (_ & Hck).
  destruct (Hck r Hr Hwhere) as (w' & Hw' & ?).
  rewrite get_assign, Hc, Hw in Hw'.
  destruct (has_column "week" r); [| discriminate].
  injection Hw' as <-. lia.
Qed.

(** The other script declares every week column [int not null] and
    nothing more. *)
Lemma unqualified_schema_has_no_week_check (name : string) (t : table)
  (c : column) :
  In name week_tables ->
  find_table schema_unqualified name = Ok t ->
  In c (tbl_columns t) -> col_name c = "week" ->
  col_constraints c = [NOT_NULL].
Proof.
  intros Hin Ht Hc Hname. simpl in Hin.
  destruct Hin as [<- | [<- | [<- | [<- | [<- | []]]]]];
    vm_compute in Ht; injection Ht as <-; simpl in Hc;
    repeat (destruct Hc as [<- | Hc]; [try discriminate Hname; reflexivity |]);
    destruct Hc.
Qed.

(** C8. A database created by the second script takes a schedule row
    for week 0 (and one for week 24), which then is a stored row of a
    reachable state with its week outside 1 to 23.  The script that
    names its tables [public.*] refuses the same statements with a check
    violation. *)
Theorem unqualified_schema_accepts_week_0 :
  (exists db,
     insert schema_unqualified sample_context "schedule" (game 0) ∅ = Ok db
     /\ rows db "schedule" = [game 0]
     /\ reachable schema_unqualified db
     /\ ~ weeks_in_range db)
  /\ (exists db,
        insert schema_unqualified sample_context "schedule" (game 24) ∅
          = Ok db
        /\ rows db "schedule" = [game 24])
  /\ insert schema_public sample_context "schedule" (game 0) ∅
     = Error check_violation
  /\ insert schema_public sample_context "schedule" (game 24) ∅
     = Error check_violation.
Proof.
  split; [| split; [| split]].
  - eexists. split; [vm_compute; reflexivity |].
    split; [vm_compute; reflexivity |]. split.
    + apply (reachable_exec schema_unqualified ∅ _ sample_context
               (INSERT "schedule" (game 0)) (reachable_empty _)).
      vm_compute. reflexivity.
    + intros H.
      destruct (H "schedule" ltac:(simpl; auto) (game 0)) as (w & Hw & ?).
      * vm_compute. auto.
      * vm_compute in Hw. injection Hw as <-. lia.
  - eexists. split; vm_compute; reflexivity.
  - vm_compute. reflexivity.
  - vm_compute. reflexivity.
Qed.

(** ** Deleting a player *)

Lemma value_eqb_Text (v : value) (s : string) :
  value_eqb v (Text s) = true <-> v = Text s.
Proof.
  destruct v; simpl; try (split; discriminate).
  rewrite String.eqb_eq. split; [intros -> | intros [= ->]]; reflexivity.
Qed.

Lemma value_eqb_Text_l (v : value) (s : string) :
  value_eqb (Text s) v = true <-> v = Text s.
Proof.
  destruct v; simpl; try (split; discriminate).
  rewrite String.eqb_eq. split; [intros -> | intros [= ->]]; reflexivity.
Qed.

(** A row refers to one of the deleted players exactly when its
    [player_id] is the deleted one. *)
Lemma refers_to_deleted (players : list row) (pid : string) (p cr : row) :
  In p players -> get "player_id" p = Text pid ->
  existsb (fun g => value_eqb (get "player_id" g) (get "player_id" cr))
    (List.filter (player_is pid) players)
  = player_is pid cr.
Proof.
  intros Hp Hpid. apply eq_true_iff_eq. rewrite existsb_exists. split.
  - intros (g & Hg & E). apply filter_In in Hg as [_ Hg].
    unfold player_is in *. apply value_eqb_Text in Hg. rewrite Hg in E.
    apply value_eqb_Text_l in E. rewrite E. apply value_eqb_Text.
    reflexivity.
  - intros H. unfold player_is in H. apply value_eqb_Text in H.
    exists p. split.
    + apply filter_In. split; [exact Hp |].
      unfold player_is. apply value_eqb_Text, Hpid.
    + rewrite Hpid, H. simpl. apply String.eqb_refl.
Qed.

Lemma delete_rows_S (fuel : nat) (tables : list table) (name : string)
  (doomed : row -> bool) (db : database) :
  delete_rows (S fuel) tables name doomed db
  = fold_left
      (fun acc fk =>
         let* d := acc in
         match fk with
         | (ct, cc, rc, action) =>
             let refers cr :=
               existsb (fun g => value_eqb (get rc g) (get cc cr))
                 (List.filter doomed (rows db name)) in
             match action with
             | CASCADE => delete_rows fuel tables ct refers d
             | NO_ACTION =>
                 if existsb refers (rows d ct)
                 then Error foreign_key_violation else Ok d
             end
         end)
      (referencing tables name)
      (Ok (<[name := List.filter (fun r => negb (doomed r))
                       (rows db name)]> db)).
Proof. reflexivity. Qed.

(** Deleting from a table nothing refers to. *)
Lemma delete_rows_leaf (fuel : nat) (tables : list table) (name : string)
  (doomed : row -> bool) (db : database) :
  referencing tables name = [] ->
  delete_rows (S fuel) tables name doomed db
  = Ok (<[name := List.filter (fun r => negb (doomed r)) (rows db name)]> db).
Proof. intros H. rewrite delete_rows_S, H. reflexivity. Qed.

(** Both scripts declare the same three foreign keys, all to
    [players(player_id)], all [on delete cascade]. *)
Lemma foreign_keys (tables : list table) :
  tables = schema_public \/ tables = schema_unqualified ->
  referencing tables "players"
    = [("news", "player_id", "player_id", CASCADE);
       ("rosters", "player_id", "player_id", CASCADE);
       ("waiver_suggestions", "player_id", "player_id", CASCADE)]
  /\ (forall name, name <> "players" -> referencing tables name = [])
  /\ length tables = 12%nat.
Proof.
  intros [-> | ->]; (split; [reflexivity | split; [| reflexivity]]);
    intros name Hne;
    assert (String.eqb "players" name = false) as E
      by (apply String.eqb_neq; congruence);
    unfold referencing, references_players; cbn -[String.eqb];
    rewrite E; reflexivity.
Qed.

(** C9. Deleting a player that exists succeeds and removes, from news,
    rosters and waiver_suggestions, exactly the rows whose player_id is
    that player's: what is left of each is its rows for other players,
    unchanged and in their order.  The player's own row goes, and no
    other table changes.  This holds under either script. *)
Theorem deleting_player_cascades
  (tables : list table) (db : database) (pid : string) (p : row) :
  tables = schema_public \/ tables = schema_unqualified ->
  In p (rows db "players") -> get "player_id" p = Text pid ->
  exists db',
    delete_player tables pid db = Ok db'
    /\ rows db' "players"
       = List.filter (fun r => negb (player_is pid r)) (rows db "players")
    /\ (forall name, In name player_tables ->
          rows db' name
          = List.filter (fun r => negb (player_is pid r)) (rows db name))
    /\ (forall name, ~ In name ("players" :: player_tables) ->
          rows db' name = rows db name).
Proof.
  intros Htables Hp Hpid.
  destruct (foreign_keys tables Htables) as (Hfk & Hleaf & Hlen).
  unfold delete_player, delete. rewrite Hlen, delete_rows_S, Hfk.
  cbn [fold_left result_bind].
  rewrite (delete_rows_leaf _ tables "news") by (apply Hleaf; discriminate).
  cbn [result_bind].
  rewrite (delete_rows_leaf _ tables "rosters")
    by (apply Hleaf; discriminate).
  cbn [result_bind].
  rewrite (delete_rows_leaf _ tables "waiver_suggestions")
    by (apply Hleaf; discriminate).
  eexists. split; [reflexivity |].
  assert (forall rs : list row,
            List.filter
              (fun r => negb (existsb
                                (fun g => value_eqb (get "player_id" g)
                                            (get "player_id" r))
                                (List.filter (player_is pid)
                                   (rows db "players")))) rs
            = List.filter (fun r => negb (player_is pid r)) rs) as Hfilter.
  { intros rs. apply filter_ext. intros r.
    rewrite (refers_to_deleted _ pid p r Hp Hpid). reflexivity. }
  split; [| split].
  - rewrite !rows_insert_ne by discriminate. apply rows_insert_eq.
  - intros name Hname. simpl in Hname.
    destruct Hname as [<- | [<- | [<- | []]]].
    + rewrite !rows_insert_ne by discriminate. rewrite rows_insert_eq.
      rewrite rows_insert_ne by discriminate. apply Hfilter.
    + rewrite !rows_insert_ne by discriminate. rewrite rows_insert_eq.
      rewrite !rows_insert_ne by discriminate. apply Hfilter.
    + rewrite rows_insert_eq.
      rewrite !rows_insert_ne by discriminate. apply Hfilter.
  - intros name Hname. simpl in Hname.
    rewrite !rows_insert_ne; [reflexivity | | | |]; intros <-; tauto.
Qed.

Lemma deleting_player_cascades_witness :
  exists db',
    delete_player schema_public "p1" sample_league = Ok db'
    /\ rows db' "players"
       = List.filter (fun r => negb (player_is "p1" r))
           (rows sample_league "players")
    /\ (forall name, In name player_tables ->
          rows db' name
          = List.filter (fun r => negb (player_is "p1" r))
              (rows sample_league name))
    /\ (forall name, ~ In name ("players" :: player_tables) ->
          rows db' name = rows sample_league name).
Proof.
  apply (deleting_player_cascades schema_public sample_league "p1"
           (player "p1" "Ann")).
  - left. reflexivity.
  - vm_compute. left. reflexivity.
  - reflexivity.
Defined.

(** What the cascade leaves of the sample league. *)
Lemma deleting_player_example :
  exists db',
    delete_player schema_public "p1" sample_league = Ok db'
    /\ rows db' "players" = [player "p2" "Bob"]
    /\ rows db' "news" = [news_item "p2" 11]
    /\ rows db' "rosters" = [roster_slot "p2"]
    /\ rows db' "waiver_suggestions" = [suggestion "p2"].
Proof.
  eexists. split; [vm_compute; reflexivity |].
  repeat split; vm_compute; reflexivity.
Qed.

(** ** The run ledger *)

Lemma model_runs_table (tables : list table) (t : table) :
  tables = schema_public \/ tables = schema_unqualified ->
  find_table tables "model_runs" = Ok t ->
  t = Table "model_runs" [
        Column "run_id" UUID [PRIMARY_KEY; DEFAULT gen_random_uuid];
        Column "season" INT [];
        Column "week" INT [];
        Column "stage" TEXT [NOT_NULL];
        Column "metrics" JSONB [];
        Column "status" TEXT
          [NOT_NULL; DEFAULT (literal (Text "started"))];
        Column "started_at" TIMESTAMPTZ [NOT_NULL; DEFAULT now];
        Column "ended_at" TIMESTAMPTZ [] ] [].
Proof.
  intros [-> | ->] H; vm_compute in H; injection H as <-; reflexivity.
Qed.

(** Opening a run adds one row, open, and touches no other. *)
Lemma open_run_adds_open_row (tables : list table) (ctx : context)
  (stage : string) (season week : value) (db db' : database) :
  tables = schema_public \/ tables = schema_unqualified ->
  open_run tables ctx stage season week db = Ok db' ->
  exists r,
    rows db' "model_runs" = (rows db "model_runs" ++ [r])%list
    /\ has_column "status" r = true /\ has_column "ended_at" r = true
    /\ run_open r.
Proof.
  intros Htables H. unfold open_run in H.
  apply insert_Ok in H as (t & Ht & _ & ->).
  apply (model_runs_table tables t Htables) in Ht as ->.
  eexists. split; [apply rows_insert_eq |].
  repeat split.
Qed.

(** Closing a run changes only rows that were started, and gives each
    of them a final status together with its ended_at. *)
Lemma close_run_closes (tables : list table) (ctx : context)
  (run_id : string) (o : outcome) (metrics : value) (db db' : database) :
  close_run tables ctx run_id o metrics db = Ok db' ->
  exists closed : row -> row,
    rows db' "model_runs"
    = List.map (fun r => if open_run_with run_id r then closed r else r)
        (rows db "model_runs")
    /\ forall r, has_column "status" r = true ->
                 has_column "ended_at" r = true ->
                 has_column "status" (closed r) = true
                 /\ has_column "ended_at" (closed r) = true
                 /\ get "status" (closed r) = Text (outcome_text o)
                 /\ get "ended_at" (closed r)
                    = Timestamptz (current_time ctx).
Proof.
  intros H. unfold close_run in H.
  apply update_Ok in H as (t & _ & _ & ->).
  eexists. split; [apply rows_insert_eq |].
  intros r Hs He. rewrite !has_column_assign, !get_assign, Hs, He.
  repeat split; assumption.
Qed.

Lemma ledger_rows_consistent (tables : list table) (db : database) :
  tables = schema_public \/ tables = schema_unqualified ->
  ledger_reachable tables db ->
  forall r, In r (rows db "model_runs") -> run_consistent r.
Proof.
  intros Htables. induction 1 as [| db db' ctx stage season week _ IH H
                                  | db db' ctx run_id o metrics _ IH H];
    intros r Hr.
  - rewrite rows_empty in Hr. destruct Hr.
  - destruct (open_run_adds_open_row _ _ _ _ _ _ _ Htables H)
      as (r' & E & Hs & He & Hopen).
    rewrite E in Hr. apply in_app_or in Hr as [Hr | [<- | []]].
    + apply (IH r Hr).
    + unfold run_consistent. auto.
  - destruct (close_run_closes _ _ _ _ _ _ _ H) as (closed & E & Hclosed).
    rewrite E in Hr. apply in_map_iff in Hr as (r0 & <- & Hr0).
    destruct (IH r0 Hr0) as (Hs & He & Hstate).
    destruct (open_run_with run_id r0); [| unfold run_consistent; auto].
    destruct (Hclosed r0 Hs He) as (Hs' & He' & Hst & Hend).
    unfold run_consistent, run_closed. eauto 10.
Qed.

Lemma outcome_text_not_started (o : outcome) :
  Text (outcome_text o) <> Text "started".
Proof. destruct o; discriminate. Qed.

(** C7, as the code has it.  The store of either script keeps no run
    from being started and ended at once; what keeps it is the way runs
    are written.  If runs are only opened, with the column defaults,
    and closed, by setting a final status together with ended_at, then
    in every state of the ledger no run is started with a non-null
    ended_at, and a run with an ended_at is a success or a failure; the
    opening adds a row with a null ended_at and changes no other, and
    the closing sets ended_at only on rows it takes from started to
    success or failed. *)
Theorem ledger_has_no_partial_run (tables : list table) (db : database) :
  tables = schema_public \/ tables = schema_unqualified ->
  ledger_reachable tables db ->
  (forall r, In r (rows db "model_runs") ->
     ~ partial_run r
     /\ (get "ended_at" r <> Null ->
         exists o, get "status" r = Text (outcome_text o)))
  /\ (forall ctx stage season week db',
        open_run tables ctx stage season week db = Ok db' ->
        exists r, rows db' "model_runs"
                  = (rows db "model_runs" ++ [r])%list
                  /\ run_open r)
  /\ (forall ctx run_id o metrics db',
        close_run tables ctx run_id o metrics db = Ok db' ->
        exists closed : row -> row,
          rows db' "model_runs"
          = List.map (fun r => if open_run_with run_id r
                               then closed r else r)
              (rows db "model_runs")
          /\ forall r, In r (rows db "model_runs") ->
               get "status" (closed r) = Text (outcome_text o)
               /\ get "ended_at" (closed r)
                  = Timestamptz (current_time ctx)).
Proof.
  intros Htables Hreach. split; [| split].
  - intros r Hr.
    destruct (ledger_rows_consistent tables db Htables Hreach r Hr)
      as (_ & _ & [[Hs He] | (o & t & Hs & He)]).
    + split; [intros [_ Hne]; contradiction | intros Hne; contradiction].
    + split.
      * intros [Hstarted _]. rewrite Hs in Hstarted.
        apply (outcome_text_not_started o Hstarted).
      * intros _. exists o. exact Hs.
  - intros ctx stage season week db' H.
    destruct (open_run_adds_open_row _ _ _ _ _ _ _ Htables H)
      as (r & E & _ & _ & Hopen).
    exists r. auto.
  - intros ctx run_id o metrics db' H.
    destruct (close_run_closes _ _ _ _ _ _ _ H) as (closed & E & Hclosed).
    exists closed. split; [exact E |].
    intros r Hr.
    destruct (ledger_rows_consistent tables db Htables Hreach r Hr)
      as (Hs & He & _).
    destruct (Hclosed r Hs He) as (_ & _ & Hst & Hend). auto.
Qed.

Lemma ledger_closed_reachable : ledger_reachable schema_public ledger_closed.
Proof.
  apply (ledger_close schema_public ledger_opened ledger_closed
           sample_context "run-1" failed (Jsonb "{}")).
  - apply (ledger_open schema_public ∅ ledger_opened
             sample_context "train" (Int 2025) (Int 3)).
    + apply ledger_empty.
    + vm_compute. reflexivity.
  - vm_compute. reflexivity.
Qed.

Lemma ledger_has_no_partial_run_witness :
  rows ledger_closed "model_runs"
  = [[("run_id", Uuid "run-1"); ("season", Int 2025); ("week", Int 3);
      ("stage", Text "train"); ("metrics", Jsonb "{}");
      ("status", Text "failed"); ("started_at", Timestamptz 1000);
      ("ended_at", Timestamptz 1000)]]
  /\ forall r, In r (rows ledger_closed "model_runs") ->
       ~ partial_run r
       /\ (get "ended_at" r <> Null ->
           exists o, get "status" r = Text (outcome_text o)).
Proof.
  split; [vm_compute; reflexivity |].
  apply (ledger_has_no_partial_run schema_public ledger_closed).
  - left. reflexivity.
  - exact ledger_closed_reachable.
Defined.

(** C7, as stated, fails.  The store takes a run that is started and
    ended at once: an insert that gives ended_at and leaves status to
    its default is accepted, so such a row is in a reachable state. *)
Lemma store_accepts_partial_run : ~ never_partial schema_public.
Proof.
  intros H.
  destruct (insert schema_public sample_context "model_runs" ended_run ∅)
    as [db | e] eqn:E; [| vm_compute in E; discriminate E].
  apply (H db
           (reachable_exec schema_public ∅ db sample_context
              (INSERT "model_runs" ended_run) (reachable_empty _) E)
           [("run_id", Uuid "run-1"); ("season", Null); ("week", Null);
            ("stage", Text "train"); ("metrics", Null);
            ("status", Text "started"); ("started_at", Timestamptz 1000);
            ("ended_at", Timestamptz 7)]).
  - vm_compute in E. injection E as <-. vm_compute. left. reflexivity.
  - split; [reflexivity | discriminate].
Qed.

(** ** The prediction cache *)

(** C6. An entry whose valid_until is at or before the time of the read
    is never what [get_fresh_prediction] returns; when it is the entry
    the lookup by (pk, sk) finds, the read is a miss.  The read leaves
    the database as it was: the entry is still stored, and nothing is
    computed or written in its place. *)
Theorem stale_prediction_is_a_miss
  (db : database) (at_time : Z) (pk sk : string) (r : row) (t : Z) :
  In r (rows db "pred_cache") ->
  get "valid_until" r = Timestamptz t ->
  t <= at_time ->
  fst (get_fresh_prediction at_time pk sk db) <> Some r
  /\ (List.find (is_entry pk sk) (rows db "pred_cache") = Some r ->
      fst (get_fresh_prediction at_time pk sk db) = None)
  /\ snd (get_fresh_prediction at_time pk sk db) = db
  /\ In r (rows (snd (get_fresh_prediction at_time pk sk db)) "pred_cache").
Proof.
  intros Hin Hvalid Hstale. unfold get_fresh_prediction. simpl.
  split; [| split; [| split; [reflexivity | exact Hin]]].
  - destruct (List.find _ _) as [r' |]; [| discriminate].
    destruct (get "valid_until" r') as [| | | | | t' | |] eqn:E;
      try discriminate.
    destruct (at_time <? t') eqn:Hlt; [| discriminate].
    intros [= ->]. rewrite Hvalid in E. injection E as <-.
    apply Z.ltb_lt in Hlt. lia.
  - intros ->. rewrite Hvalid.
    destruct (at_time <? t) eqn:Hlt; [| reflexivity].
    apply Z.ltb_lt in Hlt. lia.
Qed.

Lemma stale_prediction_is_a_miss_witness :
  fst (get_fresh_prediction 1000 "season#2025#week#3" "player#p1"
         sample_cache)
    <> Some (prediction "season#2025#week#3" "player#p1" 500)
  /\ (List.find (is_entry "season#2025#week#3" "player#p1")
        (rows sample_cache "pred_cache")
      = Some (prediction "season#2025#week#3" "player#p1" 500) ->
      fst (get_fresh_prediction 1000 "season#2025#week#3" "player#p1"
             sample_cache) = None)
  /\ snd (get_fresh_prediction 1000 "season#2025#week#3" "player#p1"
            sample_cache) = sample_cache
  /\ In (prediction "season#2025#week#3" "player#p1" 500)
       (rows (snd (get_fresh_prediction 1000 "season#2025#week#3"
                     "player#p1" sample_cache)) "pred_cache").
Proof.
  apply (stale_prediction_is_a_miss sample_cache 1000
           "season#2025#week#3" "player#p1"
           (prediction "season#2025#week#3" "player#p1" 500) 500).
  - vm_compute. left. reflexivity.
  - reflexivity.
  - lia.
Defined.

(** Whatever the read returns is an entry for (pk, sk) that is stored
    and has not expired. *)
Lemma fresh_prediction_is_fresh
  (db : database) (at_time : Z) (pk sk : string) (r : row) :
  fst (get_fresh_prediction at_time pk sk db) = Some r ->
  In r (rows db "pred_cache") /\ is_entry pk sk r = true
  /\ exists t, get "valid_until" r = Timestamptz t /\ at_time < t.
Proof.
  unfold get_fresh_prediction. simpl.
  destruct (List.find _ _) as [r' |] eqn:F; [| discriminate].
  destruct (get "valid_until" r') as [| | | | | t' | |] eqn:E;
    try discriminate.
  destruct (at_time <? t') eqn:Hlt; [| discriminate].
  intros [= <-]. apply find_some in F as [Hin Hentry].
  apply Z.ltb_lt in Hlt. eauto.
Qed.

(** An entry still valid is returned. *)
Lemma fresh_prediction_is_a_hit :
  fst (get_fresh_prediction 1000 "season#2025#week#3" "player#p2"
         sample_cache)
  = Some (prediction "season#2025#week#3" "player#p2" 2000).
Proof. vm_compute. reflexivity. Qed.

(** ** Beyond the claims: what every stored row satisfies *)

Lemma insert_inv (tables : list table) (ctx : context) (name : string)
  (assignments : row) (db db' : database) :
  insert tables ctx name assignments db = Ok db' ->
  exists t,
    find_table tables name = Ok t
    /\ known_columns t assignments = Ok tt
    /\ check_row db t (new_row ctx t assignments) = Ok tt
    /\ existsb (same_key (primary_key t) (new_row ctx t assignments))
         (rows db name) = false
    /\ db' = <[name := (rows db name ++ [new_row ctx t assignments])%list]> db.
Proof.
  unfold insert. intros H.
  bind_inv H t Ht. bind_inv H u1 Hk. bind_inv H u2 Hck.
  destruct (existsb _ (rows db name)) eqn:Hu; simpl in H; [discriminate |].
  injection H as <-. destruct u1, u2. exists t. auto.
Qed.

Lemma all_ok_Forall {A : Type} (f : A -> result unit) (l : list A) :
  all_ok (List.map f l) = Ok tt -> forall a, In a l -> f a = Ok tt.
Proof.
  intros H a Ha. apply (all_ok_In _ _ H), in_map, Ha.
Qed.

Lemma update_inv (tables : list table) (name : string)
  (where_ : row -> bool) (set : row) (db db' : database) :
  update tables name where_ set db = Ok db' ->
  let new := List.map (fun r => if where_ r then assign set r else r)
               (rows db name) in
  exists t,
    find_table tables name = Ok t
    /\ known_columns t set = Ok tt
    /\ (forall r, In r (rows db name) -> where_ r = true ->
          check_row db t (assign set r) = Ok tt)
    /\ keys_distinct (primary_key t) new = true
    /\ (forall ct cc rc a cr,
          In (ct, cc, rc, a) (referencing tables name) ->
          In cr (rows db ct) ->
          is_null (get cc cr)
          || existsb (fun r' => value_eqb (get rc r') (get cc cr)) new
          = true)
    /\ db' = <[name := new]> db.
Proof.
  intros H new. unfold update in H. fold new in H.
  bind_inv H t Ht. bind_inv H u1 Hk. bind_inv H u2 Hck.
  destruct (keys_distinct _ _) eqn:Hkeys; simpl in H; [| discriminate].
  bind_inv H u3 Hfk. injection H as <-. destruct u1, u2, u3.
  exists t. repeat split; try reflexivity; try assumption.
  - intros r Hin Hw.
    pose proof (all_ok_Forall _ _ Hck r Hin) as Hr. simpl in Hr.
    rewrite Hw in Hr. exact Hr.
  - intros ct cc rc a cr Hin Hcr.
    pose proof (all_ok_Forall _ _ Hfk _ Hin) as Hr. simpl in Hr.
    destruct (forallb _ (rows db ct)) eqn:F; [| discriminate].
    rewrite forallb_forall in F. apply (F cr Hcr).
Qed.

Lemma check_column_inv (db : database) (t : table) (r : row) (c : column) :
  check_column db t r c = Ok tt ->
  has_type (col_type c) (get (col_name c) r) = Ok tt
  /\ (existsb (String.eqb (col_name c)) (tbl_primary_key t) = true ->
      is_null (get (col_name c) r) = false)
  /\ forall k, In k (col_constraints c) ->
       check_constraint db r (get (col_name c) r) k = Ok tt.
Proof.
  unfold check_column. intros H.
  destruct (has_type _ _) as [[] | e]; simpl in H; [| discriminate].
  destruct (existsb _ (tbl_primary_key t)); simpl in H.
  - destruct (is_null _); simpl in H; [discriminate |].
    split; [reflexivity | split; [reflexivity |]].
    intros k Hk. apply (all_ok_Forall _ _ H k Hk).
  - split; [reflexivity | split; [discriminate |]].
    intros k Hk. apply (all_ok_Forall _ _ H k Hk).
Qed.

Lemma is_null_false (v : value) : is_null v = false <-> v <> Null.
Proof. destruct v; simpl; split; congruence. Qed.

Lemma checked_column_conforms (db : database) (t : table) (r : row)
  (c : column) :
  check_column db t r c = Ok tt ->
  has_type (col_type c) (get (col_name c) r) = Ok tt
  /\ (not_null_column t c = true -> get (col_name c) r <> Null)
  /\ (forall e, In (CHECK e) (col_constraints c) -> check_holds r e).
Proof.
  intros H. destruct (check_column_inv db t r c H) as (Hty & Hpk & Hks).
  split; [exact Hty | split].
  - unfold not_null_column. intros Hnn.
    apply orb_true_iff in Hnn as [Hnn | Hnn].
    + apply existsb_exists in Hnn as (k & Hk & Hdecl).
      specialize (Hks k Hk). apply is_null_false.
      destruct k; try discriminate Hdecl; simpl in Hks;
        destruct (is_null _); [discriminate | reflexivity
                               | discriminate | reflexivity].
    + apply is_null_false, Hpk, Hnn.
  - intros e He. specialize (Hks _ He). simpl in Hks. unfold check_holds.
    destruct (eval r e) as [[| | | | [] | | |] | err]; simpl in Hks;
      try discriminate; auto.
Qed.

Lemma new_row_columns (ctx : context) (t : table) (assignments : row) :
  List.map fst (new_row ctx t assignments)
  = List.map col_name (tbl_columns t).
Proof.
  unfold new_row. rewrite map_map. apply map_ext. reflexivity.
Qed.

Lemma assign_columns (set r : row) :
  List.map fst (assign set r) = List.map fst r.
Proof.
  unfold assign. rewrite map_map. apply map_ext. reflexivity.
Qed.

Lemma checked_row_conforms (db : database) (t : table) (r : row) :
  List.map fst r = List.map col_name (tbl_columns t) ->
  check_row db t r = Ok tt -> row_conforms t r.
Proof.
  intros Hshape Hck. split; [exact Hshape |].
  intros c Hc. apply (checked_column_conforms db).
  apply (check_row_column _ _ _ _ Hck Hc).
Qed.

Lemma find_table_unique (tables : list table) (name : string)
  (t t' : table) :
  find_table tables name = Ok t -> find_table tables name = Ok t' -> t = t'.
Proof. congruence. Qed.

(** Whatever the tables, whatever statements were accepted: every stored
    row conforms to the declaration of its table. *)
Lemma reachable_conforms (tables : list table) (db : database) :
  reachable tables db ->
  forall name t, find_table tables name = Ok t ->
  forall r, In r (rows db name) -> row_conforms t r.
Proof.
  induction 1 as [| db db' ctx s _ IH H]; intros name t Ht r Hr.
  - rewrite rows_empty in Hr. destruct Hr.
  - destruct s as [tbl a | tbl w set | tbl w]; simpl in H.
    + apply insert_inv in H as (t' & Ht' & _ & Hck & _ & ->).
      destruct (string_dec tbl name) as [-> | Hne].
      * rewrite rows_insert_eq in Hr.
        apply in_app_or in Hr as [Hr | [<- | []]];
          [apply (IH name t Ht r Hr) |].
        rewrite (find_table_unique _ _ _ _ Ht Ht').
        apply (checked_row_conforms db _ _ (new_row_columns _ _ _) Hck).
      * rewrite rows_insert_ne in Hr by exact Hne.
        apply (IH name t Ht r Hr).
    + apply update_inv in H as (t' & Ht' & _ & Hck & _ & _ & ->).
      destruct (string_dec tbl name) as [-> | Hne].
      * rewrite rows_insert_eq in Hr.
        apply in_map_iff in Hr as (r0 & <- & Hr0).
        destruct (w r0) eqn:Hw; [| apply (IH name t Ht r0 Hr0)].
        rewrite (find_table_unique _ _ _ _ Ht Ht').
        apply (checked_row_conforms db _ _); [| apply (Hck r0 Hr0 Hw)].
        rewrite assign_columns.
        rewrite <- (find_table_unique _ _ _ _ Ht Ht').
        apply (IH name t Ht r0 Hr0).
      * rewrite rows_insert_ne in Hr by exact Hne.
        apply (IH name t Ht r Hr).
    + apply (IH name t Ht r).
      apply (delete_rows_within _ _ _ _ _ _ H name r Hr).
Qed.

Lemma run_reachable (tables : list table) (ctx : context)
  (ss : list statement) :
  forall db db', reachable tables db -> run tables ctx ss db = Ok db' ->
                 reachable tables db'.
Proof.
  induction ss as [| s ss IH]; intros db db' Hdb H; simpl in H.
  - injection H as <-. exact Hdb.
  - bind_inv H d E. apply (IH d db'); [| exact H].
    apply (reachable_exec tables db d ctx s Hdb E).
Qed.

Lemma league_reachable : reachable schema_public league.
Proof.
  apply (run_reachable schema_public sample_context league_statements
           ∅ league (reachable_empty _)).
  vm_compute. reflexivity.
Qed.

Lemma has_type_fits (ty : sqltype) (v : value) :
  has_type ty v = Ok tt -> value_fits ty v.
Proof.
  destruct v, ty; simpl; try discriminate; try reflexivity; auto.
  intros H. bind_inv H x E. apply int4_Ok in E as [_ E]. auto.
Qed.

(** X6. In a database made by any accepted statements, a stored row has
    exactly the columns its table declares, in their order, and each of
    its values is [NULL] or of the declared type; an [int] lies within
    four bytes. *)
Theorem stored_rows_are_typed
  (tables : list table) (db : database) (name : string) (t : table)
  (r : row) :
  reachable tables db -> find_table tables name = Ok t ->
  In r (rows db name) ->
  List.map fst r = List.map col_name (tbl_columns t)
  /\ forall c, In c (tbl_columns t) ->
       value_fits (col_type c) (get (col_name c) r).
Proof.
  intros Hdb Ht Hr.
  destruct (reachable_conforms tables db Hdb name t Ht r Hr) as [Hs Hc].
  split; [exact Hs |].
  intros c Hin. apply has_type_fits, (Hc c Hin).
Qed.

Lemma stored_rows_are_typed_witness :
  List.map fst (assign [("week", Int 4)] (game 3))
  = List.map col_name (tbl_columns (table_named schema_public "schedule"))
  /\ forall c, In c (tbl_columns (table_named schema_public "schedule")) ->
       value_fits (col_type c)
         (get (col_name c) (assign [("week", Int 4)] (game 3))).
Proof.
  apply (stored_rows_are_typed schema_public league "schedule"
           (table_named schema_public "schedule")
           (assign [("week", Int 4)] (game 3))).
  - exact league_reachable.
  - reflexivity.
  - vm_compute. left. reflexivity.
Defined.

(** X7. A column declared [not null], or [primary key], or listed in
    the table's primary key, holds no [NULL] in any stored row, after
    inserts and updates alike. *)
Theorem not_null_columns_hold_no_null
  (tables : list table) (db : database) (name : string) (t : table)
  (c : column) (r : row) :
  reachable tables db -> find_table tables name = Ok t ->
  In c (tbl_columns t) -> not_null_column t c = true ->
  In r (rows db name) ->
  get (col_name c) r <> Null.
Proof.
  intros Hdb Ht Hc Hnn Hr.
  destruct (reachable_conforms tables db Hdb name t Ht r Hr) as [_ H].
  apply (H c Hc), Hnn.
Qed.

Lemma not_null_columns_hold_no_null_witness :
  get "player_id" (player "p2" "Bob") <> Null.
Proof.
  apply (not_null_columns_hold_no_null schema_public league "players"
           (table_named schema_public "players")
           (Column "player_id" TEXT [PRIMARY_KEY])
           (player "p2" "Bob")).
  - exact league_reachable.
  - reflexivity.
  - vm_compute. left. reflexivity.
  - reflexivity.
  - vm_compute. right. left. reflexivity.
Defined.

(** X8. Under the script with the checks, whatever statements were
    accepted, every stored row of schedule, defense_vs_pos, odds,
    rosters and waiver_suggestions has an integer week from 1 to 23. *)
Theorem checked_script_keeps_weeks_in_range
  (db : database) (name : string) (r : row) :
  reachable schema_public db -> In name week_tables ->
  In r (rows db name) ->
  exists w, get "week" r = Int w /\ 1 <= w <= 23.
Proof.
  intros Hdb Hname Hr.
  apply (public_schema_keeps_weeks db Hdb name Hname r Hr).
Qed.

Lemma checked_script_keeps_weeks_in_range_witness :
  exists w, get "week" (assign [("week", Int 4)] (game 3)) = Int w
            /\ 1 <= w <= 23.
Proof.
  apply (checked_script_keeps_weeks_in_range league "schedule"
           (assign [("week", Int 4)] (game 3))).
  - exact league_reachable.
  - simpl. auto.
  - vm_compute. left. reflexivity.
Defined.

(** X9. Under the script with the checks, an insert that gives one of
    those five tables a week outside 1 to 23 is refused, and so is an
    update that would set such a week on a stored row. *)
Theorem checked_script_refuses_weeks_outside
  (ctx : context) (name : string) (db : database) (w : Z)
  (assignments : row) :
  In name week_tables ->
  has_column "week" assignments = true ->
  get "week" assignments = Int w ->
  ~ 1 <= w <= 23 ->
  (exists e, insert schema_public ctx name assignments db = Error e)
  /\ (forall where_ r, In r (rows db name) -> where_ r = true ->
        exists e,
          update schema_public name where_ assignments db = Error e).
Proof.
  intros Hname Hc Hw Hout. split.
  - apply (public_schema_rejects_insert ctx name assignments db w
             Hname Hc Hw Hout).
  - intros where_ r Hr Hwhere.
    apply (public_schema_rejects_update name where_ assignments db w r
             Hname Hr Hwhere Hc Hw Hout).
Qed.

Lemma checked_script_refuses_weeks_outside_witness :
  (exists e, insert schema_public sample_context "schedule" (game 24) league
             = Error e)
  /\ (forall where_ r, In r (rows league "schedule") -> where_ r = true ->
        exists e,
          update schema_public "schedule" where_ (game 24) league
          = Error e).
Proof.
  apply (checked_script_refuses_weeks_outside sample_context "schedule"
           league 24 (game 24)).
  - simpl. auto.
  - reflexivity.
  - reflexivity.
  - lia.
Defined.

(** ** Keys *)

Lemma value_eqb_sym (a b : value) : value_eqb a b = value_eqb b a.
Proof.
  destruct a, b; simpl; try reflexivity;
    try apply String.eqb_sym; try apply Z.eqb_sym.
  destruct b0, b; reflexivity.
Qed.

Lemma same_key_sym (key : list string) (a b : row) :
  same_key key a b = same_key key b a.
Proof.
  unfold same_key. induction key as [| c key IH]; simpl; [reflexivity |].
  rewrite IH, value_eqb_sym. reflexivity.
Qed.

Lemma existsb_filter_false {A : Type} (p keep : A -> bool) (l : list A) :
  existsb p l = false -> existsb p (List.filter keep l) = false.
Proof.
  induction l as [| x l IH]; simpl; [reflexivity |].
  intros H. apply orb_false_iff in H as [Hx Hl].
  destruct (keep x); simpl; [rewrite Hx |]; apply IH, Hl.
Qed.

Lemma keys_distinct_filter (key : list string) (keep : row -> bool)
  (l : list row) :
  keys_distinct key l = true -> keys_distinct key (List.filter keep l) = true.
Proof.
  induction l as [| r l IH]; simpl; [reflexivity |].
  intros H. apply andb_true_iff in H as [Hr Hl].
  destruct (keep r); simpl; [| apply IH, Hl].
  apply negb_true_iff in Hr.
  rewrite (existsb_filter_false _ keep l Hr). simpl. apply IH, Hl.
Qed.

Lemma keys_distinct_snoc (key : list string) (l : list row) (r : row) :
  keys_distinct key l = true ->
  existsb (same_key key r) l = false ->
  keys_distinct key (l ++ [r]) = true.
Proof.
  induction l as [| x l IH]; simpl; [reflexivity |].
  intros H Hr. apply andb_true_iff in H as [Hx Hl].
  apply orb_false_iff in Hr as [Hrx Hrl].
  rewrite (IH Hl Hrl), andb_true_r.
  apply negb_true_iff in Hx. apply negb_true_iff.
  rewrite existsb_app, Hx. simpl.
  rewrite same_key_sym, Hrx. reflexivity.
Qed.

Lemma keys_distinct_identify (key : list string) (l : list row) :
  keys_distinct key l = true -> keys_identify key l.
Proof.
  induction l as [| x l IH]; intros H i j a b Hi Hj Hab.
  - destruct i; discriminate.
  - simpl in H. apply andb_true_iff in H as [Hx Hl].
    apply negb_true_iff in Hx.
    assert (forall y, In y l -> same_key key x y = false) as Hfresh.
    { intros y Hy. destruct (same_key key x y) eqn:E; [| reflexivity].
      assert (existsb (same_key key x) l = true) as Hex
        by (apply existsb_exists; eauto).
      congruence. }
    destruct i as [| i], j as [| j]; simpl in Hi, Hj.
    + reflexivity.
    + injection Hi as <-. apply nth_error_In in Hj.
      rewrite (Hfresh b Hj) in Hab. discriminate.
    + injection Hj as <-. apply nth_error_In in Hi.
      rewrite same_key_sym, (Hfresh a Hi) in Hab. discriminate.
    + f_equal. apply (IH Hl i j a b Hi Hj Hab).
Qed.

Lemma filter_filter {A : Type} (f g : A -> bool) (l : list A) :
  List.filter f (List.filter g l) = List.filter (fun x => g x && f x) l.
Proof.
  induction l as [| x l IH]; simpl; [reflexivity |].
  destruct (g x); simpl; [destruct (f x) |]; rewrite IH; reflexivity.
Qed.

Lemma filter_all {A : Type} (l : list A) :
  List.filter (fun _ => true) l = l.
Proof. induction l as [| x l IH]; simpl; [| rewrite IH]; reflexivity. Qed.

Lemma rows_filtered_refl (db : database) : rows_filtered db db.
Proof. intros name. exists (fun _ => true). symmetry. apply filter_all. Qed.

Lemma rows_filtered_trans (a b c : database) :
  rows_filtered a b -> rows_filtered b c -> rows_filtered a c.
Proof.
  intros Hab Hbc name. destruct (Hab name) as [f Hf], (Hbc name) as [g Hg].
  exists (fun x => g x && f x). rewrite Hf, Hg. apply filter_filter.
Qed.

Lemma rows_filtered_one (db : database) (name : string)
  (keep : row -> bool) :
  rows_filtered (<[name := List.filter keep (rows db name)]> db) db.
Proof.
  intros other. destruct (string_dec name other) as [<- | Hne].
  - exists keep. apply rows_insert_eq.
  - exists (fun _ => true). rewrite rows_insert_ne by exact Hne.
    symmetry. apply filter_all.
Qed.

(** A delete, with all it cascades to, filters every table. *)
Lemma delete_rows_filtered (fuel : nat) (tables : list table) :
  forall (name : string) (doomed : row -> bool) (db db' : database),
    delete_rows fuel tables name doomed db = Ok db' ->
    rows_filtered db' db.
Proof.
  induction fuel as [| fuel IH]; intros name doomed db db' H;
    [discriminate |].
  simpl in H.
  pose proof (rows_filtered_one db name (fun r => negb (doomed r))) as H0.
  revert H0 H.
  generalize (<[name := List.filter (fun r => negb (doomed r))
                          (rows db name)]> db).
  generalize (List.filter doomed (rows db name)) as gone.
  intros gone.
  induction (referencing tables name) as [| [[[ct cc] rc] action] fks IHf];
    intros d0 H0 H; simpl in H.
  - injection H as <-. exact H0.
  - destruct action.
    + destruct (existsb _ (rows d0 ct)).
      * rewrite fold_from_error in H. discriminate.
      * apply (IHf d0 H0 H).
    + destruct (delete_rows fuel tables ct _ d0) as [d1 | e] eqn:E.
      * apply (IHf d1); [| exact H].
        apply (rows_filtered_trans _ d0); [| exact H0].
        apply (IH _ _ _ _ E).
      * rewrite fold_from_error in H. discriminate.
Qed.

Lemma reachable_keys_distinct (tables : list table) (db : database) :
  reachable tables db ->
  forall name t, find_table tables name = Ok t ->
  keys_distinct (primary_key t) (rows db name) = true.
Proof.
  induction 1 as [| db db' ctx s _ IH H]; intros name t Ht.
  - rewrite rows_empty. reflexivity.
  - destruct s as [tbl a | tbl w set | tbl w]; simpl in H.
    + apply insert_inv in H as (t' & Ht' & _ & _ & Hfresh & ->).
      destruct (string_dec tbl name) as [-> | Hne].
      * rewrite rows_insert_eq, (find_table_unique _ _ _ _ Ht Ht').
        apply keys_distinct_snoc; [apply (IH name t' Ht') | exact Hfresh].
      * rewrite rows_insert_ne by exact Hne. apply (IH name t Ht).
    + apply update_inv in H as (t' & Ht' & _ & _ & Hkeys & _ & ->).
      destruct (string_dec tbl name) as [-> | Hne].
      * rewrite rows_insert_eq, (find_table_unique _ _ _ _ Ht Ht').
        exact Hkeys.
      * rewrite rows_insert_ne by exact Hne. apply (IH name t Ht).
    + destruct (delete_rows_filtered _ _ _ _ _ _ H name) as [keep ->].
      apply keys_distinct_filter, (IH name t Ht).
Qed.

(** X10. Under either script a table never stores two rows with the
    same primary key: in every state reached by accepted statements,
    rows at different places of a table differ in some key column.  So
    there is at most one schedule entry per (season, week, team), one
    cached prediction per (pk, sk), and so on. *)
Theorem primary_keys_stay_unique
  (tables : list table) (db : database) (name : string) (t : table)
  (i j : nat) (a b : row) :
  tables = schema_public \/ tables = schema_unqualified ->
  reachable tables db -> find_table tables name = Ok t ->
  nth_error (rows db name) i = Some a ->
  nth_error (rows db name) j = Some b ->
  i <> j ->
  same_key (primary_key t) a b = false.
Proof.
  intros _ Hdb Ht Hi Hj Hij.
  destruct (same_key (primary_key t) a b) eqn:Hab; [| reflexivity].
  contradiction Hij.
  apply (keys_distinct_identify (primary_key t) (rows db name)
           (reachable_keys_distinct tables db Hdb name t Ht) i j a b
           Hi Hj Hab).
Qed.

Lemma primary_keys_stay_unique_witness :
  same_key (primary_key (table_named schema_public "players"))
    (player "p1" "Ann") (player "p2" "Bob") = false.
Proof.
  apply (primary_keys_stay_unique schema_public league "players"
           (table_named schema_public "players") 0 1
           (player "p1" "Ann") (player "p2" "Bob")).
  - left. reflexivity.
  - exact league_reachable.
  - reflexivity.
  - vm_compute. reflexivity.
  - vm_compute. reflexivity.
  - discriminate.
Defined.

(** X11. An insert whose primary key is that of a stored row is
    refused, under either script; the row that was there stays the
    only one with its key. *)
Theorem duplicate_key_is_refused
  (tables : list table) (ctx : context) (name : string) (t : table)
  (assignments : row) (db : database) (r : row) :
  find_table tables name = Ok t ->
  In r (rows db name) ->
  same_key (primary_key t) (new_row ctx t assignments) r = true ->
  exists e, insert tables ctx name assignments db = Error e.
Proof.
  intros Ht Hr Hsame.
  destruct (insert tables ctx name assignments db) as [db' | e] eqn:E;
    [| exists e; reflexivity].
  apply insert_inv in E as (t' & Ht' & _ & _ & Hfresh & _).
  rewrite <- (find_table_unique _ _ _ _ Ht Ht') in Hfresh.
  assert (existsb (same_key (primary_key t) (new_row ctx t assignments))
            (rows db name) = true) as Hex
    by (apply existsb_exists; eauto).
  congruence.
Qed.

Lemma duplicate_key_is_refused_witness :
  exists e,
    insert schema_public sample_context "players" (player "p2" "Robert")
      league = Error e.
Proof.
  apply (duplicate_key_is_refused schema_public sample_context "players"
           (table_named schema_public "players")
           (player "p2" "Robert") league (player "p2" "Bob")).
  - reflexivity.
  - vm_compute. right. left. reflexivity.
  - vm_compute. reflexivity.
Defined.

(** ** References to players *)

Lemma player_id_declared (tables : list table) (name : string) (t : table) :
  tables = schema_public \/ tables = schema_unqualified ->
  In name player_tables ->
  find_table tables name = Ok t ->
  In player_id_column (tbl_columns t).
Proof.
  intros Htables Hin Ht. simpl in Hin.
  destruct Htables as [-> | ->];
    destruct Hin as [<- | [<- | [<- | []]]];
    vm_compute in Ht; injection Ht as <-; simpl; auto 10.
Qed.

(** The reference a checked child row carries is met. *)
Lemma checked_row_refers (tables : list table) (name : string) (t : table)
  (db : database) (r : row) :
  tables = schema_public \/ tables = schema_unqualified ->
  In name player_tables ->
  find_table tables name = Ok t ->
  check_row db t r = Ok tt ->
  is_null (get "player_id" r)
  || existsb (fun p => value_eqb (get "player_id" p) (get "player_id" r))
       (rows db "players") = true.
Proof.
  intros Htables Hin Ht Hck.
  pose proof (check_row_column _ _ _ _ Hck
                (player_id_declared tables name t Htables Hin Ht)) as Hc.
  destruct (check_column_constraint db t r player_id_column
              references_players Hc) as [_ Hk]; [simpl; auto |].
  simpl in Hk.
  destruct (is_null _ || existsb _ _); [reflexivity | discriminate].
Qed.

(** [delete from players where ...], whatever the condition. *)
Lemma delete_players_shape (tables : list table) (doomed : row -> bool)
  (db : database) :
  tables = schema_public \/ tables = schema_unqualified ->
  exists db',
    delete tables "players" doomed db = Ok db'
    /\ rows db' "players"
       = List.filter (fun r => negb (doomed r)) (rows db "players")
    /\ (forall name, In name player_tables ->
          rows db' name
          = List.filter
              (fun r =>
                 negb (existsb
                         (fun g => value_eqb (get "player_id" g)
                                     (get "player_id" r))
                         (List.filter doomed (rows db "players"))))
              (rows db name))
    /\ (forall name, ~ In name ("players" :: player_tables) ->
          rows db' name = rows db name).
Proof.
  intros Htables.
  destruct (foreign_keys tables Htables) as (Hfk & Hleaf & Hlen).
  unfold delete. rewrite Hlen, delete_rows_S, Hfk.
  cbn [fold_left result_bind].
  rewrite (delete_rows_leaf _ tables "news") by (apply Hleaf; discriminate).
  cbn [result_bind].
  rewrite (delete_rows_leaf _ tables "rosters")
    by (apply Hleaf; discriminate).
  cbn [result_bind].
  rewrite (delete_rows_leaf _ tables "waiver_suggestions")
    by (apply Hleaf; discriminate).
  eexists. split; [reflexivity |].
  split; [| split].
  - rewrite !rows_insert_ne by discriminate. apply rows_insert_eq.
  - intros name Hname. simpl in Hname.
    destruct Hname as [<- | [<- | [<- | []]]].
    + rewrite !rows_insert_ne by discriminate. rewrite rows_insert_eq.
      rewrite rows_insert_ne by discriminate. reflexivity.
    + rewrite !rows_insert_ne by discriminate. rewrite rows_insert_eq.
      rewrite !rows_insert_ne by discriminate. reflexivity.
    + rewrite rows_insert_eq.
      rewrite !rows_insert_ne by discriminate. reflexivity.
  - intros name Hname. simpl in Hname.
    rewrite !rows_insert_ne; [reflexivity | | | |]; intros <-; tauto.
Qed.

(** A delete from any other table changes that table only. *)
Lemma delete_elsewhere_shape (tables : list table) (name : string)
  (doomed : row -> bool) (db : database) :
  tables = schema_public \/ tables = schema_unqualified ->
  name <> "players" ->
  delete tables name doomed db
  = Ok (<[name := List.filter (fun r => negb (doomed r)) (rows db name)]> db).
Proof.
  intros Htables Hne.
  destruct (foreign_keys tables Htables) as (_ & Hleaf & Hlen).
  unfold delete. rewrite Hlen. apply delete_rows_leaf, Hleaf, Hne.
Qed.

Lemma player_tables_not_players (name : string) :
  In name player_tables -> name <> "players".
Proof. simpl. intros [<- | [<- | [<- | []]]]; discriminate. Qed.

Lemma exec_keeps_references (tables : list table) (ctx : context)
  (s : statement) (db db' : database) :
  tables = schema_public \/ tables = schema_unqualified ->
  references_met db ->
  exec tables ctx s db = Ok db' ->
  references_met db'.
Proof.
  intros Htables Hdb H name Hname r Hr.
  pose proof (player_tables_not_players name Hname) as Hnp.
  destruct s as [tbl a | tbl w set | tbl w]; simpl in H.
  - apply insert_inv in H as (t & Ht & _ & Hck & _ & ->).
    destruct (string_dec tbl "players") as [-> | Hne].
    + rewrite rows_insert_ne in Hr by congruence.
      rewrite rows_insert_eq.
      specialize (Hdb name Hname r Hr).
      apply orb_true_iff in Hdb as [Hdb | Hdb]; [rewrite Hdb; reflexivity |].
      rewrite existsb_app, Hdb, orb_true_r. reflexivity.
    + rewrite (rows_insert_ne _ tbl "players") by exact Hne.
      destruct (string_dec tbl name) as [-> | Hne'].
      * rewrite rows_insert_eq in Hr.
        apply in_app_or in Hr as [Hr | [<- | []]];
          [apply (Hdb name Hname r Hr) |].
        apply (checked_row_refers tables name t db _ Htables Hname Ht Hck).
      * rewrite rows_insert_ne in Hr by exact Hne'.
        apply (Hdb name Hname r Hr).
  - apply update_inv in H as (t & Ht & _ & Hck & _ & Hfk & ->).
    destruct (string_dec tbl "players") as [-> | Hne].
    + rewrite rows_insert_ne in Hr by congruence.
      rewrite rows_insert_eq.
      destruct (foreign_keys tables Htables) as (Hedges & _ & _).
      apply (Hfk name "player_id" "player_id" CASCADE r); [| exact Hr].
      rewrite Hedges. simpl in Hname. simpl.
      destruct Hname as [<- | [<- | [<- | []]]]; auto.
    + rewrite (rows_insert_ne _ tbl "players") by exact Hne.
      destruct (string_dec tbl name) as [-> | Hne'].
      * rewrite rows_insert_eq in Hr.
        apply in_map_iff in Hr as (r0 & <- & Hr0).
        destruct (w r0) eqn:Hw; [| apply (Hdb name Hname r0 Hr0)].
        apply (checked_row_refers tables name t db _ Htables Hname Ht).
        apply (Hck r0 Hr0 Hw).
      * rewrite rows_insert_ne in Hr by exact Hne'.
        apply (Hdb name Hname r Hr).
  - destruct (string_dec tbl "players") as [-> | Hne].
    + destruct (delete_players_shape tables w db Htables)
        as (d & Hd & Hplayers & Hchildren & _).
      rewrite Hd in H. injection H as <-.
      rewrite Hplayers. rewrite (Hchildren name Hname) in Hr.
      apply filter_In in Hr as [Hr Hkept].
      apply negb_true_iff in Hkept.
      specialize (Hdb name Hname r Hr).
      apply orb_true_iff in Hdb as [Hdb | Hdb]; [rewrite Hdb; reflexivity |].
      apply orb_true_iff. right.
      apply existsb_exists in Hdb as (p & Hp & Heq).
      apply existsb_exists. exists p. split; [| exact Heq].
      apply filter_In. split; [exact Hp |].
      destruct (w p) eqn:Hw; [| reflexivity].
      assert (existsb (fun g => value_eqb (get "player_id" g)
                                  (get "player_id" r))
                (List.filter w (rows db "players")) = true) as Hex.
      { apply existsb_exists. exists p. split; [| exact Heq].
        apply filter_In. auto. }
      congruence.
    + rewrite (delete_elsewhere_shape tables tbl w db Htables Hne) in H.
      injection H as <-.
      rewrite (rows_insert_ne _ tbl "players") by exact Hne.
      apply (Hdb name Hname r).
      destruct (string_dec tbl name) as [-> | Hne'].
      * rewrite rows_insert_eq in Hr. apply filter_In in Hr. apply Hr.
      * rewrite rows_insert_ne in Hr by exact Hne'. exact Hr.
Qed.

Lemma reachable_references_met (tables : list table) (db : database) :
  tables = schema_public \/ tables = schema_unqualified ->
  reachable tables db -> references_met db.
Proof.
  intros Htables. induction 1 as [| db db' ctx s _ IH H].
  - intros name _ r Hr. rewrite rows_empty in Hr. destruct Hr.
  - apply (exec_keeps_references tables ctx s db db' Htables IH H).
Qed.

Lemma value_eqb_Text_eq (a b : value) (s : string) :
  b = Text s -> value_eqb a b = true -> a = Text s.
Proof. intros -> H. apply value_eqb_Text, H. Qed.

Lemma stored_reference_has_player
  (tables : list table) (db : database) (name : string) (r : row) :
  tables = schema_public \/ tables = schema_unqualified ->
  reachable tables db ->
  In name player_tables -> In r (rows db name) ->
  exists pid p,
    get "player_id" r = Text pid
    /\ In p (rows db "players")
    /\ get "player_id" p = Text pid.
Proof.
  intros Htables Hdb Hname Hr.
  assert (exists t, find_table tables name = Ok t) as [t Ht].
  { simpl in Hname.
    destruct Htables as [-> | ->];
      destruct Hname as [<- | [<- | [<- | []]]]; eexists; reflexivity. }
  destruct (reachable_conforms tables db Hdb name t Ht r Hr) as [_ Hc].
  destruct (Hc player_id_column
              (player_id_declared tables name t Htables Hname Ht))
    as (Hty & Hnn & _).
  simpl in Hty, Hnn. specialize (Hnn eq_refl).
  destruct (get "player_id" r) as [| pid | | | | | |] eqn:Hpid;
    try discriminate; [contradiction |].
  pose proof (reachable_references_met tables db Htables Hdb name Hname
                r Hr) as Hmet.
  rewrite Hpid in Hmet. simpl in Hmet.
  apply existsb_exists in Hmet as (p & Hp & Heq).
  exists pid, p. split; [reflexivity | split; [exact Hp |]].
  apply value_eqb_Text in Heq. exact Heq.
Qed.

(** X12. Referential integrity.  Under either script, in every state
    reached by accepted statements, each row of news, rosters and
    waiver_suggestions names a player that is stored: its player_id is a
    text, and players has a row with that player_id.  No insert, update
    or delete, cascading or not, leaves a row without its player. *)
Theorem every_reference_has_its_player
  (tables : list table) (db : database) (name : string) (r : row) :
  tables = schema_public \/ tables = schema_unqualified ->
  reachable tables db ->
  In name player_tables -> In r (rows db name) ->
  exists pid p,
    get "player_id" r = Text pid
    /\ In p (rows db "players")
    /\ get "player_id" p = Text pid.
Proof.
  intros Htables Hdb Hname Hr.
  apply (stored_reference_has_player tables db name r Htables Hdb Hname Hr).
Qed.

Lemma every_reference_has_its_player_witness :
  exists pid p,
    get "player_id" (news_item "p1" 10) = Text pid
    /\ In p (rows league "players")
    /\ get "player_id" p = Text pid.
Proof.
  apply (every_reference_has_its_player schema_public league "news"
           (news_item "p1" 10)).
  - left. reflexivity.
  - exact league_reachable.
  - simpl. auto.
  - vm_compute. left. reflexivity.
Defined.

Lemma get_new_row (ctx : context) (t : table) (assignments : row)
  (name : string) :
  get name (new_row ctx t assignments)
  = match column_named t name with
    | Some c => if has_column name assignments then get name assignments
                else default_value ctx c
    | None => Null
    end.
Proof.
  unfold new_row, column_named, default_value.
  induction (tbl_columns t) as [| c cs IH]; simpl; [reflexivity |].
  destruct (String.eqb (col_name c) name) eqn:E; [| exact IH].
  apply String.eqb_eq in E as <-. reflexivity.
Qed.

Lemma known_column_named (t : table) (assignments : row) (name : string) :
  known_columns t assignments = Ok tt ->
  has_column name assignments = true ->
  exists c, column_named t name = Some c.
Proof.
  unfold known_columns, column_named.
  destruct (forallb _ assignments) eqn:F; [| discriminate]. intros _.
  rewrite forallb_forall in F.
  induction assignments as [| [k v] rest IH]; simpl; [discriminate |].
  intros H. apply orb_true_iff in H as [H | H].
  - apply String.eqb_eq in H as <-.
    specialize (F (k, v) (or_introl eq_refl)). simpl in F.
    apply existsb_exists in F as (c & Hc & E).
    destruct (List.find (fun c' => String.eqb (col_name c') k)
                (tbl_columns t)) as [c' |] eqn:Hfind; [eauto |].
    apply (find_none _ _ Hfind c) in Hc. congruence.
  - apply IH; [| exact H]. intros x Hx. apply F. right. exact Hx.
Qed.



(** X14. A row of news, rosters or waiver_suggestions for a player that
    is not stored is refused, under either script: the insert fails, and
    so does an update that would point a stored row at such a player. *)
Theorem unknown_player_is_refused
  (tables : list table) (ctx : context) (name : string)
  (assignments : row) (db : database) (pid : string) :
  tables = schema_public \/ tables = schema_unqualified ->
  In name player_tables ->
  has_column "player_id" assignments = true ->
  get "player_id" assignments = Text pid ->
  (forall p, In p (rows db "players") -> get "player_id" p <> Text pid) ->
  (exists e, insert tables ctx name assignments db = Error e)
  /\ (forall where_ r, In r (rows db name) -> where_ r = true ->
        exists e, update tables name where_ assignments db = Error e).
Proof.
  intros Htables Hname Hc Hpid Hnone.
  assert (forall t r,
            find_table tables name = Ok t ->
            check_row db t r = Ok tt ->
            get "player_id" r = Text pid -> False) as Hno.
  { intros t r Ht Hck Hr.
    pose proof (checked_row_refers tables name t db r Htables Hname Ht Hck)
      as Hmet.
    rewrite Hr in Hmet. simpl in Hmet.
    apply existsb_exists in Hmet as (p & Hp & Heq).
    apply value_eqb_Text in Heq. apply (Hnone p Hp Heq). }
  split.
  - destruct (insert tables ctx name assignments db) as [db' | e] eqn:E;
      [| exists e; reflexivity].
    exfalso.
    apply insert_inv in E as (t & Ht & Hknown & Hck & _ & _).
    apply (Hno t _ Ht Hck).
    rewrite get_new_row.
    destruct (known_column_named t assignments "player_id" Hknown Hc)
      as [col ->].
    rewrite Hc. exact Hpid.
  - intros where_ r Hr Hwhere.
    destruct (update tables name where_ assignments db) as [db' | e] eqn:E;
      [| exists e; reflexivity].
    exfalso.
    apply update_inv in E as (t & Ht & _ & Hck & _ & _ & _).
    pose proof (Hck r Hr Hwhere) as Hrow.
    pose proof (checked_row_refers tables name t db _ Htables Hname Ht Hrow)
      as Hmet.
    rewrite get_assign, Hc, Hpid in Hmet.
    destruct (has_column "player_id" r) eqn:Hhas.
    + simpl in Hmet. apply existsb_exists in Hmet as (p & Hp & Heq).
      apply value_eqb_Text in Heq. apply (Hnone p Hp Heq).
    + pose proof (check_row_column _ _ _ _ Hrow
                    (player_id_declared tables name t Htables Hname Ht))
        as Hcol.
      destruct (check_column_constraint db t _ player_id_column NOT_NULL
                  Hcol) as [_ Hnn]; [simpl; auto |].
      simpl in Hnn. rewrite get_assign, Hhas in Hnn. discriminate.
Qed.

Lemma unknown_player_is_refused_witness :
  (exists e, insert schema_public sample_context "rosters"
               (roster_slot "p9") league = Error e)
  /\ (forall where_ r, In r (rows league "rosters") -> where_ r = true ->
        exists e, update schema_public "rosters" where_ (roster_slot "p9")
                    league = Error e).
Proof.
  apply (unknown_player_is_refused schema_public sample_context "rosters"
           (roster_slot "p9") league "p9").
  - left. reflexivity.
  - simpl. auto.
  - reflexivity.
  - reflexivity.
  - vm_compute. intros p [<- | [<- | []]]; discriminate.
Defined.

Lemma filter_none {A : Type} (f : A -> bool) (l : list A) :
  (forall x, In x l -> f x = false) -> List.filter f l = [].
Proof.
  induction l as [| x l IH]; simpl; [reflexivity |].
  intros H. rewrite (H x (or_introl eq_refl)).
  apply IH. intros y Hy. apply H. right. exact Hy.
Qed.

(** X15. [delete from players where ...], whatever the condition and
    however many players it selects, always succeeds under either
    script.  It removes the selected players; from news, rosters and
    waiver_suggestions it removes exactly the rows whose player_id is
    that of a removed player; it changes no other table.  When the
    condition selects no player, no table loses a row. *)
Theorem deleting_players_cascades_for_any_condition
  (tables : list table) (doomed : row -> bool) (db : database) :
  tables = schema_public \/ tables = schema_unqualified ->
  exists db',
    delete tables "players" doomed db = Ok db'
    /\ rows db' "players"
       = List.filter (fun r => negb (doomed r)) (rows db "players")
    /\ (forall name r, In name player_tables ->
          (In r (rows db' name) <->
           In r (rows db name)
           /\ forall g, In g (rows db "players") -> doomed g = true ->
                value_eqb (get "player_id" g) (get "player_id" r) = false))
    /\ (forall name, ~ In name ("players" :: player_tables) ->
          rows db' name = rows db name)
    /\ ((forall g, In g (rows db "players") -> doomed g = false) ->
        forall name, rows db' name = rows db name).
Proof.
  intros Htables.
  destruct (delete_players_shape tables doomed db Htables)
    as (db' & Hd & Hplayers & Hchildren & Hothers).
  exists db'. split; [exact Hd | split; [exact Hplayers |]].
  assert (forall r,
            existsb (fun g => value_eqb (get "player_id" g)
                                (get "player_id" r))
              (List.filter doomed (rows db "players")) = false <->
            forall g, In g (rows db "players") -> doomed g = true ->
              value_eqb (get "player_id" g) (get "player_id" r) = false)
    as Hrefers.
  { intros r. split.
    - intros H g Hg Hdoomed.
      destruct (value_eqb _ _) eqn:E; [| reflexivity].
      assert (existsb (fun g => value_eqb (get "player_id" g)
                                  (get "player_id" r))
                (List.filter doomed (rows db "players")) = true) as Hex.
      { apply existsb_exists. exists g. split; [| exact E].
        apply filter_In. auto. }
      congruence.
    - intros H. apply not_true_iff_false. intros Hex.
      apply existsb_exists in Hex as (g & Hg & E).
      apply filter_In in Hg as [Hg Hdoomed].
      rewrite (H g Hg Hdoomed) in E. discriminate. }
  split; [| split; [exact Hothers |]].
  - intros name r Hname. rewrite (Hchildren name Hname), filter_In.
    rewrite negb_true_iff, Hrefers. reflexivity.
  - intros Hnone name.
    pose proof (filter_none doomed (rows db "players") Hnone) as Hgone.
    destruct (in_dec string_dec name ("players" :: player_tables))
      as [Hin | Hout]; [| apply (Hothers name Hout)].
    destruct Hin as [<- | Hin].
    + rewrite Hplayers.
      rewrite <- (filter_all (rows db "players")) at 2.
      apply filter_ext_in. intros g Hg. rewrite (Hnone g Hg). reflexivity.
    + rewrite (Hchildren name Hin), Hgone. simpl. apply filter_all.
Qed.

Lemma deleting_players_cascades_for_any_condition_witness :
  exists db',
    delete schema_public "players" (plays "WR") sample_league = Ok db'
    /\ rows db' "players"
       = List.filter (fun r => negb (plays "WR" r))
           (rows sample_league "players")
    /\ (forall name r, In name player_tables ->
          (In r (rows db' name) <->
           In r (rows sample_league name)
           /\ forall g, In g (rows sample_league "players") ->
                plays "WR" g = true ->
                value_eqb (get "player_id" g) (get "player_id" r) = false))
    /\ (forall name, ~ In name ("players" :: player_tables) ->
          rows db' name = rows sample_league name)
    /\ ((forall g, In g (rows sample_league "players") ->
           plays "WR" g = false) ->
        forall name, rows db' name = rows sample_league name).
Proof.
  apply (deleting_players_cascades_for_any_condition schema_public
           (plays "WR") sample_league).
  left. reflexivity.
Defined.

(** X16. A delete from any table but players touches that table only,
    under either script: it always succeeds, leaves in the table the
    rows the condition does not select, and removes no player and no
    row of another table. *)
Theorem deleting_elsewhere_stays_local
  (tables : list table) (name : string) (t : table)
  (doomed : row -> bool) (db : database) :
  tables = schema_public \/ tables = schema_unqualified ->
  find_table tables name = Ok t ->
  name <> "players" ->
  exists db',
    delete tables name doomed db = Ok db'
    /\ rows db' name
       = List.filter (fun r => negb (doomed r)) (rows db name)
    /\ forall other, other <> name -> rows db' other = rows db other.
Proof.
  intros Htables _ Hne.
  rewrite (delete_elsewhere_shape tables name doomed db Htables Hne).
  eexists. split; [reflexivity | split; [apply rows_insert_eq |]].
  intros other Hother. apply rows_insert_ne. congruence.
Qed.

Lemma deleting_elsewhere_stays_local_witness :
  exists db',
    delete schema_public "news" (player_is "p1") sample_league = Ok db'
    /\ rows db' "news"
       = List.filter (fun r => negb (player_is "p1" r))
           (rows sample_league "news")
    /\ forall other, other <> "news" ->
         rows db' other = rows sample_league other.
Proof.
  apply (deleting_elsewhere_stays_local schema_public "news"
           (table_named schema_public "news")
           (player_is "p1") sample_league).
  - left. reflexivity.
  - reflexivity.
  - discriminate.
Defined.

(** X17. The player_id of a player that some row refers to cannot be
    changed away: under either script an update of players after which
    no player would carry the player_id of a stored news, rosters or
    waiver_suggestions row is refused (the scripts name no action on
    update). *)
Theorem referenced_player_id_cannot_change
  (tables : list table) (where_ : row -> bool) (set : row)
  (db : database) (name : string) (r : row) (pid : string) :
  tables = schema_public \/ tables = schema_unqualified ->
  In name player_tables -> In r (rows db name) ->
  get "player_id" r = Text pid ->
  (forall p, In p (updated where_ set (rows db "players")) ->
     get "player_id" p <> Text pid) ->
  exists e, update tables "players" where_ set db = Error e.
Proof.
  intros Htables Hname Hr Hpid Hgone.
  destruct (update tables "players" where_ set db) as [db' | e] eqn:E;
    [| exists e; reflexivity].
  exfalso.
  apply update_inv in E as (t & _ & _ & _ & _ & Hfk & _).
  destruct (foreign_keys tables Htables) as (Hedges & _ & _).
  assert (In (name, "player_id", "player_id", CASCADE)
            (referencing tables "players")) as Hedge.
  { rewrite Hedges. simpl in Hname. simpl.
    destruct Hname as [<- | [<- | [<- | []]]]; auto. }
  pose proof (Hfk name "player_id" "player_id" CASCADE r Hedge Hr) as Hmet.
  rewrite Hpid in Hmet. simpl in Hmet.
  apply existsb_exists in Hmet as (p & Hp & Heq).
  apply value_eqb_Text in Heq. apply (Hgone p Hp Heq).
Qed.

Lemma referenced_player_id_cannot_change_witness :
  exists e,
    update schema_public "players" (player_is "p1")
      [("player_id", Text "p7")] league = Error e.
Proof.
  apply (referenced_player_id_cannot_change schema_public (player_is "p1")
           [("player_id", Text "p7")] league "news" (news_item "p1" 10)
           "p1").
  - left. reflexivity.
  - simpl. auto.
  - vm_compute. left. reflexivity.
  - reflexivity.
  - vm_compute. intros p [<- | [<- | []]]; discriminate.
Defined.

(** ** The view on whole tables *)


(** X18. Whenever the view computes a probability from a moneyline, it
    is one: at least 0 and less than 1.  It is below one half for a
    moneyline above +100, above one half for a moneyline below -100, and
    one half at +100 and at -100. *)
Theorem implied_probability_is_a_probability (r : row) (m : Z) :
  has_column "moneyline" r = true ->
  get "moneyline" r = Int m ->
  int4_min < m <= int4_max ->
  exists p,
    eval r implied_win_prob = Ok (Numeric p)
    /\ (0 <= p)%Q /\ (p < 1)%Q
    /\ (100 < m -> (p < 1 # 2)%Q)
    /\ (m < -100 -> (1 # 2 < p)%Q)
    /\ (m = 100 \/ m = -100 -> (p == 1 # 2)%Q).
Proof.
  intros Hc Hm [Hlo Hhi].
  destruct (Z_lt_le_dec 0 m) as [Hpos | Hneg].
  - exists (100.0 / (inject_Z m + 100.0))%Q.
    split; [apply (implied_win_prob_positive r m Hc Hm Hpos) |].
    assert (0 < inject_Z m + 100.0)%Q as Hd
      by (unfold Qlt, Qplus, inject_Z; simpl; lia).
    repeat split.
    + apply Qle_shift_div_l; [exact Hd |].
      unfold Qle, Qmult, Qplus, inject_Z; simpl; lia.
    + apply Qlt_shift_div_r; [exact Hd |].
      unfold Qlt, Qmult, Qplus, inject_Z; simpl; lia.
    + intros Hm'. apply Qlt_shift_div_r; [exact Hd |].
      unfold Qlt, Qmult, Qplus, inject_Z; simpl; lia.
    + intros Hm'. lia.
    + intros [-> | ->]; [reflexivity | lia].
  - exists (inject_Z (- m) / (inject_Z (- m) + 100.0))%Q.
    split; [apply (implied_win_prob_not_positive r m Hc Hm); lia |].
    assert (0 < inject_Z (- m) + 100.0)%Q as Hd
      by (unfold Qlt, Qplus, inject_Z; simpl; lia).
    repeat split.
    + apply Qle_shift_div_l; [exact Hd |].
      unfold Qle, Qmult, Qplus, inject_Z; simpl; lia.
    + apply Qlt_shift_div_r; [exact Hd |].
      unfold Qlt, Qmult, Qplus, inject_Z; simpl; lia.
    + intros Hm'. lia.
    + intros Hm'. apply Qlt_shift_div_l; [exact Hd |].
      unfold Qlt, Qmult, Qplus, inject_Z; simpl; lia.
    + intros [-> | ->]; [lia | reflexivity].
Qed.

Lemma implied_probability_is_a_probability_witness :
  exists p,
    eval (line (Int (-250))) implied_win_prob = Ok (Numeric p)
    /\ (0 <= p)%Q /\ (p < 1)%Q
    /\ (100 < -250 -> (p < 1 # 2)%Q)
    /\ (-250 < -100 -> (1 # 2 < p)%Q)
    /\ (-250 = 100 \/ -250 = -100 -> (p == 1 # 2)%Q).
Proof.
  apply (implied_probability_is_a_probability (line (Int (-250))) (-250)).
  - reflexivity.
  - reflexivity.
  - unfold int4_min, int4_max. lia.
Defined.








(** ** The two scripts side by side *)

Lemma scripts_differ_by_checks :
  List.map strip_checks schema_public = schema_unqualified.
Proof. reflexivity. Qed.

Lemma all_ok_intro (checks : list (result unit)) :
  (forall c, In c checks -> c = Ok tt) -> all_ok checks = Ok tt.
Proof.
  induction checks as [| c cs IH]; intros H; simpl; [reflexivity |].
  rewrite (H c (or_introl eq_refl)). simpl.
  apply IH. intros x Hx. apply H. right. exact Hx.
Qed.

Lemma find_table_strip (tables : list table) (name : string) :
  find_table (List.map strip_checks tables) name
  = match find_table tables name with
    | Ok t => Ok (strip_checks t)
    | Error e => Error e
    end.
Proof.
  unfold find_table.
  induction tables as [| t ts IH]; simpl; [reflexivity |].
  destruct (String.eqb (tbl_name t) name); [reflexivity | exact IH].
Qed.

Lemma existsb_map {A B : Type} (f : B -> bool) (g : A -> B) (l : list A) :
  existsb f (List.map g l) = existsb (fun a => f (g a)) l.
Proof.
  induction l as [| a l IH]; simpl; [| rewrite IH]; reflexivity.
Qed.

Lemma forallb_pointwise {A : Type} (f g : A -> bool) (l : list A) :
  (forall a, f a = g a) -> forallb f l = forallb g l.
Proof.
  intros H. induction l as [| a l IH]; simpl; [| rewrite H, IH];
    reflexivity.
Qed.

Lemma known_columns_strip (t : table) (assignments : row) :
  known_columns (strip_checks t) assignments = known_columns t assignments.
Proof.
  unfold known_columns. simpl.
  assert (forall a : string * value,
            existsb (fun c => String.eqb (col_name c) (fst a))
              (List.map
                 (fun c => Column (col_name c) (col_type c)
                             (List.filter (fun k => negb (is_check k))
                                (col_constraints c)))
                 (tbl_columns t))
            = existsb (fun c => String.eqb (col_name c) (fst a))
                (tbl_columns t)) as E
    by (intros a; apply existsb_map).
  rewrite (forallb_pointwise _ _ assignments E). reflexivity.
Qed.

Lemma default_of_strip (ks : list column_constraint) :
  default_of (List.filter (fun k => negb (is_check k)) ks) = default_of ks.
Proof.
  induction ks as [| k ks IH]; simpl; [reflexivity |].
  destruct k; simpl; try reflexivity; exact IH.
Qed.

Lemma new_row_strip (ctx : context) (t : table) (assignments : row) :
  new_row ctx (strip_checks t) assignments = new_row ctx t assignments.
Proof.
  unfold new_row. simpl. rewrite map_map. apply map_ext. intros c. simpl.
  rewrite default_of_strip. reflexivity.
Qed.

Lemma existsb_primary_strip (ks : list column_constraint) :
  existsb is_primary_key (List.filter (fun k => negb (is_check k)) ks)
  = existsb is_primary_key ks.
Proof.
  induction ks as [| k ks IH]; simpl; [reflexivity |].
  destruct k; simpl; rewrite ?IH; reflexivity.
Qed.

Lemma primary_key_strip (t : table) :
  primary_key (strip_checks t) = primary_key t.
Proof.
  unfold primary_key. simpl. f_equal.
  induction (tbl_columns t) as [| c cs IH]; simpl; [reflexivity |].
  rewrite existsb_primary_strip.
  destruct (existsb is_primary_key (col_constraints c)); simpl;
    rewrite IH; reflexivity.
Qed.

Lemma check_column_strip (db : database) (t : table) (r : row) (c : column) :
  check_column db t r c = Ok tt ->
  check_column db (strip_checks t) r
    (Column (col_name c) (col_type c)
       (List.filter (fun k => negb (is_check k)) (col_constraints c)))
  = Ok tt.
Proof.
  intros H. destruct (check_column_inv db t r c H) as (Hty & Hpk & Hks).
  unfold check_column. simpl. rewrite Hty. simpl.
  destruct (existsb (String.eqb (col_name c)) (tbl_primary_key t)) eqn:E;
    simpl.
  - rewrite (Hpk eq_refl). simpl. apply all_ok_intro.
    intros x Hx. apply in_map_iff in Hx as (k & <- & Hk).
    apply filter_In in Hk as [Hk _]. apply (Hks k Hk).
  - apply all_ok_intro.
    intros x Hx. apply in_map_iff in Hx as (k & <- & Hk).
    apply filter_In in Hk as [Hk _]. apply (Hks k Hk).
Qed.

Lemma check_row_strip (db : database) (t : table) (r : row) :
  check_row db t r = Ok tt -> check_row db (strip_checks t) r = Ok tt.
Proof.
  intros H. unfold check_row. simpl. apply all_ok_intro.
  intros x Hx. apply in_map_iff in Hx as (c' & <- & Hc').
  apply in_map_iff in Hc' as (c & <- & Hc).
  apply check_column_strip, (check_row_column _ _ _ _ H Hc).
Qed.

Lemma referencing_strip (tables : list table) (name : string) :
  referencing (List.map strip_checks tables) name = referencing tables name.
Proof.
  unfold referencing.
  induction tables as [| t ts IH]; simpl; [reflexivity |].
  rewrite IH. f_equal.
  induction (tbl_columns t) as [| c cs IHc]; simpl; [reflexivity |].
  rewrite IHc. f_equal.
  induction (col_constraints c) as [| k ks IHk]; simpl; [reflexivity |].
  destruct k; simpl; rewrite ?IHk; reflexivity.
Qed.

Lemma fold_left_ext {A B : Type} (f g : A -> B -> A) (l : list B) :
  (forall a b, f a b = g a b) ->
  forall a, fold_left f l a = fold_left g l a.
Proof.
  intros H. induction l as [| b l IH]; intros a; simpl; [reflexivity |].
  rewrite H. apply IH.
Qed.

Lemma delete_rows_strip (fuel : nat) (tables : list table) :
  forall (name : string) (doomed : row -> bool) (db : database),
    delete_rows fuel (List.map strip_checks tables) name doomed db
    = delete_rows fuel tables name doomed db.
Proof.
  induction fuel as [| fuel IH]; intros name doomed db; [reflexivity |].
  rewrite !delete_rows_S, referencing_strip.
  apply fold_left_ext. intros acc [[[ct cc] rc] action].
  destruct acc as [d | e]; simpl; [| reflexivity].
  destruct action; [reflexivity | apply IH].
Qed.

Lemma exec_strip (tables : list table) (ctx : context) (s : statement)
  (db db' : database) :
  exec tables ctx s db = Ok db' ->
  exec (List.map strip_checks tables) ctx s db = Ok db'.
Proof.
  destruct s as [name a | name w set | name w]; simpl; intros H.
  - apply insert_inv in H as (t & Ht & Hknown & Hck & Hfresh & ->).
    unfold insert. rewrite find_table_strip, Ht. simpl.
    rewrite known_columns_strip, Hknown. simpl.
    rewrite new_row_strip, (check_row_strip _ _ _ Hck). simpl.
    rewrite primary_key_strip, Hfresh. reflexivity.
  - pose proof H as H'.
    apply update_inv in H' as (t & Ht & Hknown & Hck & Hkeys & Hfk & ->).
    unfold update in *. rewrite find_table_strip, Ht in *. simpl in *.
    rewrite known_columns_strip, Hknown in *. simpl in *.
    rewrite primary_key_strip, Hkeys, referencing_strip in *. simpl in *.
    assert (all_ok
              (List.map
                 (fun r => if w r
                           then check_row db (strip_checks t) (assign set r)
                           else Ok tt) (rows db name)) = Ok tt) as ->.
    { apply all_ok_intro. intros x Hx.
      apply in_map_iff in Hx as (r & <- & Hr).
      destruct (w r) eqn:Hw; [| reflexivity].
      apply check_row_strip, (Hck r Hr Hw). }
    simpl. bind_inv H u1 E1. exact H.
  - unfold delete in *. rewrite length_map, delete_rows_strip. exact H.
Qed.

(** X21. The second script is the first without its checks, and is the
    more permissive of the two: every statement a database of the first
    script accepts, a database of the second accepts too, with the same
    result.  So every state the first can reach, the second can
    reach. *)
Theorem unchecked_script_accepts_what_the_checked_accepts
  (db : database) :
  reachable schema_public db ->
  reachable schema_unqualified db
  /\ forall ctx s db',
       exec schema_public ctx s db = Ok db' ->
       exec schema_unqualified ctx s db = Ok db'.
Proof.
  intros Hdb. rewrite <- scripts_differ_by_checks. split.
  - induction Hdb as [| db db' ctx s _ IH H]; [apply reachable_empty |].
    apply (reachable_exec _ db db' ctx s IH), exec_strip, H.
  - intros ctx s db' H. apply exec_strip, H.
Qed.

Lemma unchecked_script_accepts_what_the_checked_accepts_witness :
  reachable schema_unqualified league
  /\ forall ctx s db',
       exec schema_public ctx s league = Ok db' ->
       exec schema_unqualified ctx s league = Ok db'.
Proof.
  apply (unchecked_script_accepts_what_the_checked_accepts league).
  exact league_reachable.
Defined.

(** ** Statements one after the other *)

Lemma filter_keeps_all {A : Type} (f : A -> bool) (l : list A) :
  (forall x, In x l -> f x = true) -> List.filter f l = l.
Proof.
  induction l as [| x l IH]; simpl; [reflexivity |].
  intros H. rewrite (H x (or_introl eq_refl)). f_equal.
  apply IH. intros y Hy. apply H. right. exact Hy.
Qed.

(** When the condition selects no player, the delete changes no row. *)
Lemma delete_players_none (tables : list table) (doomed : row -> bool)
  (db db' : database) :
  tables = schema_public \/ tables = schema_unqualified ->
  (forall g, In g (rows db "players") -> doomed g = false) ->
  delete tables "players" doomed db = Ok db' ->
  forall name, rows db' name = rows db name.
Proof.
  intros Htables Hnone H name.
  destruct (delete_players_shape tables doomed db Htables)
    as (d & Hd & Hplayers & Hchildren & Hothers).
  rewrite Hd in H. injection H as <-.
  pose proof (filter_none doomed (rows db "players") Hnone) as Hgone.
  destruct (in_dec string_dec name ("players" :: player_tables))
    as [Hin | Hout]; [| apply (Hothers name Hout)].
  destruct Hin as [<- | Hin].
  - rewrite Hplayers. apply filter_keeps_all.
    intros g Hg. rewrite (Hnone g Hg). reflexivity.
  - rewrite (Hchildren name Hin), Hgone. simpl. apply filter_all.
Qed.

(** X22. Deleting the same players a second time changes nothing, under
    either script: after [delete from players where ...], running the
    same delete again succeeds and leaves every table as the first
    left it. *)
Theorem deleting_players_twice_is_deleting_once
  (tables : list table) (doomed : row -> bool) (db db1 : database) :
  tables = schema_public \/ tables = schema_unqualified ->
  delete tables "players" doomed db = Ok db1 ->
  exists db2,
    delete tables "players" doomed db1 = Ok db2
    /\ forall name, rows db2 name = rows db1 name.
Proof.
  intros Htables H1.
  destruct (delete_players_shape tables doomed db Htables)
    as (d & Hd & Hplayers & _).
  rewrite Hd in H1. injection H1 as <-.
  destruct (delete_players_shape tables doomed d Htables)
    as (db2 & Hd2 & _).
  exists db2. split; [exact Hd2 |].
  apply (delete_players_none tables doomed d db2 Htables); [| exact Hd2].
  intros g Hg. rewrite Hplayers in Hg. apply filter_In in Hg as [_ Hg].
  apply negb_true_iff, Hg.
Qed.

Lemma deleting_players_twice_is_deleting_once_witness :
  exists db2,
    delete schema_public "players" (player_is "p1")
      (database_of (delete_player schema_public "p1" sample_league))
    = Ok db2
    /\ forall name,
         rows db2 name
         = rows (database_of (delete_player schema_public "p1"
                                sample_league)) name.
Proof.
  apply (deleting_players_twice_is_deleting_once schema_public
           (player_is "p1") sample_league
           (database_of (delete_player schema_public "p1" sample_league))).
  - left. reflexivity.
  - vm_compute. reflexivity.
Defined.

Lemma players_key (tables : list table) (t : table) :
  tables = schema_public \/ tables = schema_unqualified ->
  find_table tables "players" = Ok t ->
  primary_key t = ["player_id"].
Proof.
  intros [-> | ->] H; vm_compute in H; injection H as <-; reflexivity.
Qed.

(** X23. Adding a player and deleting it again is a round trip.  Under
    either script, in any state reached by accepted statements, after
    an accepted insert of a player with player_id pid,
    [delete from players where player_id = pid] succeeds and every
    table holds exactly the rows it held before the insert: the
    cascade removes no row, since none can refer to the new player
    yet. *)
Theorem adding_then_deleting_a_player_restores
  (tables : list table) (ctx : context) (assignments : row)
  (pid : string) (db db1 : database) :
  tables = schema_public \/ tables = schema_unqualified ->
  reachable tables db ->
  has_column "player_id" assignments = true ->
  get "player_id" assignments = Text pid ->
  insert tables ctx "players" assignments db = Ok db1 ->
  exists db2,
    delete_player tables pid db1 = Ok db2
    /\ forall name, rows db2 name = rows db name.
Proof.
  intros Htables Hdb Hc Hpid H.
  apply insert_inv in H as (t & Ht & Hknown & _ & Hfresh & ->).
  set (r := new_row ctx t assignments) in *.
  assert (get "player_id" r = Text pid) as Hr.
  { unfold r. rewrite get_new_row.
    destruct (known_column_named t assignments "player_id" Hknown Hc)
      as [col ->].
    rewrite Hc. exact Hpid. }
  rewrite (players_key tables t Htables Ht) in Hfresh.
  assert (forall p, In p (rows db "players") -> player_is pid p = false)
    as Hnew.
  { intros p Hp. apply not_true_iff_false. intros Hsame.
    assert (existsb (same_key ["player_id"] r) (rows db "players") = true)
      as Hex.
    { apply existsb_exists. exists p. split; [exact Hp |].
      unfold same_key. simpl. rewrite Hr, andb_true_r.
      unfold player_is in Hsame. apply value_eqb_Text in Hsame.
      rewrite Hsame. simpl. apply String.eqb_refl. }
    congruence. }
  unfold delete_player.
  destruct (delete_players_shape tables (player_is pid)
              (<["players" := (rows db "players" ++ [r])%list]> db)
              Htables)
    as (db2 & Hd & Hplayers & Hchildren & Hothers).
  exists db2. split; [exact Hd |].
  rewrite rows_insert_eq in Hplayers, Hchildren.
  assert (List.filter (player_is pid) (rows db "players" ++ [r]) = [r])
    as Hgone.
  { rewrite List.filter_app, (filter_none _ _ Hnew). simpl.
    unfold player_is at 1. rewrite Hr. simpl.
    rewrite String.eqb_refl. reflexivity. }
  intros name.
  destruct (in_dec string_dec name ("players" :: player_tables))
    as [Hin | Hout].
  - destruct Hin as [<- | Hin].
    + rewrite Hplayers, List.filter_app. simpl.
      unfold player_is at 2. rewrite Hr. simpl.
      rewrite String.eqb_refl. simpl. rewrite app_nil_r.
      apply filter_keeps_all. intros p Hp. rewrite (Hnew p Hp).
      reflexivity.
    + rewrite (Hchildren name Hin), Hgone.
      rewrite rows_insert_ne
        by (intros E; symmetry in E;
            apply (player_tables_not_players name Hin E)).
      apply filter_keeps_all. intros c Hcrow. simpl.
      rewrite orb_false_r. apply negb_true_iff.
      apply not_true_iff_false. intros Hsame.
      destruct (stored_reference_has_player tables db name c Htables Hdb
                  Hin Hcrow) as (pid' & p & Hcid & Hp & Hpid').
      rewrite Hr, Hcid in Hsame. simpl in Hsame.
      apply String.eqb_eq in Hsame as <-.
      pose proof (Hnew p Hp) as Hfalse. unfold player_is in Hfalse.
      rewrite Hpid' in Hfalse. simpl in Hfalse.
      rewrite String.eqb_refl in Hfalse. discriminate.
  - rewrite (Hothers name Hout). apply rows_insert_ne.
    intros <-. apply Hout. left. reflexivity.
Qed.

Lemma adding_then_deleting_a_player_restores_witness :
  exists db2,
    delete_player schema_public "p3"
      (database_of (insert schema_public sample_context "players"
                      (player "p3" "Cy") league))
    = Ok db2
    /\ forall name, rows db2 name = rows league name.
Proof.
  apply (adding_then_deleting_a_player_restores schema_public
           sample_context (player "p3" "Cy") "p3" league
           (database_of (insert schema_public sample_context "players"
                           (player "p3" "Cy") league))).
  - left. reflexivity.
  - exact league_reachable.
  - reflexivity.
  - reflexivity.
  - vm_compute. reflexivity.
Defined.



End SqlSpec.
